(** * Entity resolution of the data integration toolkit

    A shallow embedding of [HezbollahDataIntegrator]
    (initial-review/data_integration_toolkit.py): name normalisation, the
    name index, exact and fuzzy matching, profile assembly and the two batch
    drivers, followed by the properties the specification states about them.

    Text is modelled over the ASCII repertoire: a Python [str] is a list of
    [ascii] code points.  Two library functions the toolkit calls are not
    part of the repository and enter as section variables: [fuzz.ratio] of
    fuzzywuzzy and the per-cell test of pandas' [Series.str.contains]. *)

From Stdlib Require Import Ascii String ZArith Lia Bool List Permutation Sorted.
Import ListNotations.
Open Scope Z_scope.

(* ================================================================= *)
(** ** Text *)

Definition text := list ascii.

(** [lit "abc"] is the Python literal ['abc']. *)
Definition lit (s : string) : text := list_ascii_of_string s.

Definition code (c : ascii) : Z := Z.of_N (N_of_ascii c).

Definition in_range (lo hi : Z) (c : ascii) : bool :=
  (lo <=? code c) && (code c <=? hi).

(** [str.isspace] on one ASCII character: TAB, LF, VT, FF, CR, the four
    separators FS, GS, RS, US and the blank. *)
Definition isspace (c : ascii) : bool :=
  in_range 9 13 c || in_range 28 32 c.

(** The class [\w] of [re]: letters, digits and the underscore. *)
Definition isword (c : ascii) : bool :=
  in_range 97 122 c || in_range 65 90 c || in_range 48 57 c || (code c =? 95).

Definition upper_char (c : ascii) : ascii :=
  if in_range 97 122 c then ascii_of_N (N_of_ascii c - 32) else c.

(** [str.upper]. *)
Definition upper (s : text) : text := map upper_char s.

Definition ascii_eqb (a b : ascii) : bool := Ascii.eqb a b.

Fixpoint text_eqb (a b : text) : bool :=
  match a, b with
  | [], [] => true
  | x :: a', y :: b' => ascii_eqb x y && text_eqb a' b'
  | _, _ => false
  end.

(** [drop_prefix t s] is [Some rest] when [s = t ++ rest]. *)
Fixpoint drop_prefix (t s : text) : option text :=
  match t with
  | [] => Some s
  | x :: t' =>
      match s with
      | y :: s' => if ascii_eqb x y then drop_prefix t' s' else None
      | [] => None
      end
  end.

(** [str.strip]: whitespace removed at both ends. *)
Fixpoint lstrip (s : text) : text :=
  match s with
  | c :: s' => if isspace c then lstrip s' else s
  | [] => []
  end.

Definition rstrip (s : text) : text := rev (lstrip (rev s)).

Definition strip (s : text) : text := rstrip (lstrip s).

(** [str.split] without argument: the maximal runs of non-blank
    characters, in order. *)
Fixpoint split (s : text) : list text :=
  match s with
  | [] => []
  | c :: rest =>
      if isspace c then split rest
      else match rest with
           | [] => [[c]]
           | d :: _ =>
               if isspace d then [c] :: split rest
               else match split rest with
                    | w :: ws => (c :: w) :: ws
                    | [] => [[c]]
                    end
           end
  end.

(** [sep.join(parts)]. *)
Fixpoint join (sep : text) (parts : list text) : text :=
  match parts with
  | [] => []
  | [p] => p
  | p :: ps => p ++ sep ++ join sep ps
  end.

(* ================================================================= *)
(** ** The honorific pattern

    [re.sub(r'\b(MR|MRS|MS|DR|PROF|SR|JR)\b\.?', '', name)]. *)

Definition titles : list text :=
  map lit ["MR"; "MRS"; "MS"; "DR"; "PROF"; "SR"; "JR"]%string.

Definition word_opt (o : option ascii) : bool :=
  match o with
  | Some c => isword c
  | None => false
  end.

(** [\b] between the character before a position and the one after it. *)
Definition boundary (prev next : option ascii) : bool :=
  xorb (word_opt prev) (word_opt next).

Definition last_of (prev : option ascii) (t : text) : option ascii :=
  match rev t with
  | c :: _ => Some c
  | [] => prev
  end.

Definition dot : ascii := "."%char.

(** One alternative of the group tried at a position whose preceding
    character is [prev]: the number of characters the whole pattern
    consumes there. *)
Definition try_alt (prev : option ascii) (s : text) (t : text) : option nat :=
  if boundary prev (hd_error s) then
    match drop_prefix t s with
    | Some rest =>
        if boundary (last_of prev t) (hd_error rest) then
          match rest with
          | c :: _ => if ascii_eqb c dot then Some (S (length t)) else Some (length t)
          | [] => Some (length t)
          end
        else None
    | None => None
    end
  else None.

(** The alternatives are tried from left to right. *)
Fixpoint first_alt (prev : option ascii) (s : text) (alts : list text) : option nat :=
  match alts with
  | [] => None
  | t :: alts' =>
      match try_alt prev s t with
      | Some n => Some n
      | None => first_alt prev s alts'
      end
  end.

Definition match_title (prev : option ascii) (s : text) : option nat :=
  first_alt prev s titles.

(** The scan of [re.sub] with the empty replacement: at each position the
    pattern is tried; a match is dropped and the scan resumes after it,
    otherwise the character is kept.  [skip] counts the characters of the
    current match still to drop, [prev] is the character before the
    position in the subject string. *)
Fixpoint sub_from (prev : option ascii) (skip : nat) (s : text) : text :=
  match s with
  | [] => []
  | c :: rest =>
      match skip with
      | S k => sub_from (Some c) k rest
      | O =>
          match match_title prev s with
          | Some (S k) => sub_from (Some c) k rest
          | _ => c :: sub_from (Some c) 0 rest
          end
      end
  end.

Definition sub_titles (s : text) : text := sub_from None 0 s.

(* ================================================================= *)
(** ** Cells and [normalize_name] *)

(** A cell of a table read by pandas: missing ([NaN]) or text. *)
Inductive cell :=
| NA
| Text (s : text).

Definition notna (c : cell) : bool :=
  match c with
  | NA => false
  | Text _ => true
  end.

Definition space : ascii := " "%char.

Definition normalize_name (name : cell) : text :=
  match name with
  | NA => []
  | Text s =>
      let name := upper s in
      let name := sub_titles name in
      join [space] (split name)
  end.

(* ================================================================= *)
(** ** Exceptions *)

Inductive exn :=
| ValueError   (* int() of a string that is no integer literal *)
| TypeError    (* a pattern that is not a string *)
| ReError.     (* a pattern that does not compile *)

Inductive outcome (A : Type) :=
| Ok (a : A)
| Raise (e : exn).

Arguments Ok {A} a.
Arguments Raise {A} e.

Definition bind {A B : Type} (m : outcome A) (k : A -> outcome B) : outcome B :=
  match m with
  | Ok a => k a
  | Raise e => Raise e
  end.

Notation "x <- m ;; k" := (bind m (fun x => k))
  (at level 61, m at next level, right associativity).

(** A loop body run over a sequence, collecting one value per element and
    stopping at the first exception. *)
Fixpoint for_each {A B : Type} (f : A -> outcome B) (l : list A) : outcome (list B) :=
  match l with
  | [] => Ok []
  | a :: l' =>
      b <- f a ;;
      bs <- for_each f l' ;;
      Ok (b :: bs)
  end.

(* ================================================================= *)
(** ** The reference tables *)

Module Entity.
Record t := mk
  { uid : Z; sdn_type : cell; first_name : cell; last_name : cell;
    title : cell; remarks : cell }.
End Entity.

Module Alias.
Record t := mk
  { entity_uid : Z; aka_uid : Z; type_ : cell; category : cell;
    first_name : cell; last_name : cell }.
End Alias.

Module Address.
Record t := mk
  { entity_uid : Z; address_uid : Z; address1 : cell; address2 : cell;
    address3 : cell; city : cell; state_province : cell;
    postal_code : cell; country : cell }.
End Address.

Module IdDoc.
Record t := mk
  { entity_uid : Z; id_uid : Z; id_type : cell; id_number : cell;
    id_country : cell; issue_date : cell; expiration_date : cell }.
End IdDoc.

(* ================================================================= *)
(** ** Dictionaries

    A Python [dict] keyed by strings: insertion ordered, an assignment to
    a key already present keeps the key's position. *)

Definition dict := list (text * Z).

Fixpoint dict_get (k : text) (d : dict) : option Z :=
  match d with
  | [] => None
  | (k', v) :: d' => if text_eqb k' k then Some v else dict_get k d'
  end.

Fixpoint dict_set (k : text) (v : Z) (d : dict) : dict :=
  match d with
  | [] => [(k, v)]
  | (k', v') :: d' =>
      if text_eqb k' k then (k', v) :: d' else (k', v') :: dict_set k v d'
  end.

Definition keys (d : dict) : list text := map fst d.

(* ================================================================= *)
(** ** The integrator *)

Record HezbollahDataIntegrator := mkIntegrator
  { entities : list Entity.t;
    aliases : list Alias.t;
    addresses : list Address.t;
    ids : list IdDoc.t;
    name_index : dict }.

(** What an f-string prints for a cell. *)
Definition fmt (c : cell) : text :=
  match c with
  | NA => lit "nan"
  | Text s => s
  end.

(** The key [_build_name_index] computes from a first and a last name. *)
Definition full_name (first last : cell) : text :=
  let full_name := (if notna first then fmt first else []) ++ [space] ++ fmt last in
  upper (strip full_name).

Definition _build_name_index (es : list Entity.t) (als : list Alias.t) : dict :=
  let names := [] in
  let names :=
    fold_left
      (fun names entity =>
         dict_set (full_name (Entity.first_name entity) (Entity.last_name entity))
                  (Entity.uid entity) names)
      es names in
  let names :=
    fold_left
      (fun names alias =>
         dict_set (full_name (Alias.first_name alias) (Alias.last_name alias))
                  (Alias.entity_uid alias) names)
      als names in
  names.

(** [__init__], with the four tables already read. *)
Definition init (es : list Entity.t) (als : list Alias.t)
    (ads : list Address.t) (ds : list IdDoc.t) : HezbollahDataIntegrator :=
  mkIntegrator es als ads ds (_build_name_index es als).

Definition exact_match (self : HezbollahDataIntegrator) (name : cell) : option Z :=
  let normalized := normalize_name name in
  dict_get normalized (name_index self).

Module Match.
Record t := mk
  { uid : Z; ofac_name : text; input_name : cell; match_score : Z }.
End Match.

(** [sorted(matches, key=lambda x: x['match_score'], reverse=True)]: the
    sort is stable, so the result is the one of a stable insertion. *)
Fixpoint insert_desc (m : Match.t) (l : list Match.t) : list Match.t :=
  match l with
  | [] => [m]
  | x :: l' =>
      if Match.match_score m <? Match.match_score x
      then x :: insert_desc m l'
      else m :: l
  end.

Definition sorted_desc (l : list Match.t) : list Match.t :=
  fold_right insert_desc [] l.

(** Truth value of the result of a lookup: [None] and [0] are false. *)
Definition truthy_uid (uid : option Z) : bool :=
  match uid with
  | Some n => negb (n =? 0)
  | None => false
  end.

(** [int(s)] for a string: blanks stripped, an optional sign, decimal
    digits with single underscores between them. *)
Fixpoint int_digits (acc : Z) (after_digit : bool) (s : text) : option Z :=
  match s with
  | [] => if after_digit then Some acc else None
  | c :: rest =>
      if in_range 48 57 c then int_digits (10 * acc + (code c - 48)) true rest
      else if (code c =? 95) && after_digit then int_digits acc false rest
      else None
  end.

Definition int_of_str (s : text) : outcome Z :=
  let body :=
    match strip s with
    | c :: rest =>
        if code c =? 43 then int_digits 0 false rest
        else if code c =? 45 then option_map Z.opp (int_digits 0 false rest)
        else int_digits 0 false (c :: rest)
    | [] => None
    end in
  match body with
  | Some n => Ok n
  | None => Raise ValueError
  end.

(** The uid handed to the profile lookup: an integer or a string. *)
Inductive uid_arg :=
| UidInt (n : Z)
| UidStr (s : text).

Module Profile.
Record t := mk
  { uid : Z; basic_info : Entity.t; aliases : list Alias.t;
    addresses : list Address.t; ids : list IdDoc.t }.
End Profile.

Definition get_entity_profile (self : HezbollahDataIntegrator) (uid : uid_arg)
  : outcome (option Profile.t) :=
  uid <- match uid with
         | UidStr s => int_of_str s
         | UidInt n => Ok n
         end ;;
  let entity_df := filter (fun e => Entity.uid e =? uid) (entities self) in
  match entity_df with
  | [] => Ok None
  | entity :: _ =>
      Ok (Some (Profile.mk uid entity
                  (filter (fun a => Alias.entity_uid a =? uid) (aliases self))
                  (filter (fun a => Address.entity_uid a =? uid) (addresses self))
                  (filter (fun d => IdDoc.entity_uid d =? uid) (ids self))))
  end.

(** Labels of the batch outputs. *)
Inductive label := l_exact | l_fuzzy | l_none | l_no_match.
Inductive tier := high | medium | low | new_entity.

Module BatchRow.
Record t := mk
  { input_name : cell; match_type : label; uid : option Z;
    ofac_name : option text; match_score : Z }.
End BatchRow.

(** A result of [process_new_source]: a key the code does not set is
    [None]. *)
Module SourceResult.
Record t := mk
  { source_row : Z; ofac_match : option label; ofac_uid : option Z;
    match_score : option Z; confidence : option tier;
    location_matches : option Z }.
End SourceResult.

(** A row handed out by [iterrows]: column label to cell. *)
Definition row := list (text * cell).

Fixpoint row_get (col : text) (r : row) : option cell :=
  match r with
  | [] => None
  | (k, v) :: r' => if text_eqb k col then Some v else row_get col r'
  end.

(** The [data] argument: a frame, as its rows with their index labels, or
    a dict, which becomes the one-row frame [pd.DataFrame([data])]. *)
Inductive source :=
| Frame (rows : list (Z * row))
| Dict (d : row).

Definition iterrows (data : source) : list (Z * row) :=
  match data with
  | Frame rows => rows
  | Dict d => [(0, d)]
  end.

Definition is_empty (s : text) : bool :=
  match s with
  | [] => true
  | _ => false
  end.

(** Truth value of an optional argument: [None] and [''] are false, every
    other value, [NaN] included, is true. *)
Definition truthy_arg (a : option cell) : bool :=
  match a with
  | None => false
  | Some NA => true
  | Some (Text s) => negb (is_empty s)
  end.

Section Toolkit.

(** [fuzz.ratio]. *)
Variable ratio : text -> text -> Z.

(** [re.compile(pat, re.IGNORECASE)] followed by [search] on a subject;
    [None] when [pat] is not a regular expression. *)
Variable re_search : text -> option (text -> bool).

Definition fuzzy_scan (normalized : text) (name : cell) (threshold : Z)
  : dict -> list Match.t :=
  fix scan (items : dict) : list Match.t :=
    match items with
    | [] => []
    | (ofac_name, uid) :: rest =>
        let score := ratio normalized ofac_name in
        if threshold <=? score
        then Match.mk uid ofac_name name score :: scan rest
        else scan rest
    end.

Definition fuzzy_match (self : HezbollahDataIntegrator) (name : cell)
    (threshold : Z) : list Match.t :=
  let normalized := normalize_name name in
  let matches := fuzzy_scan normalized name threshold (name_index self) in
  sorted_desc matches.

(** [column.str.contains(pat, case=False, na=False)] as a test on one
    cell of the column. *)
Definition str_contains (pat : cell) : outcome (cell -> bool) :=
  match pat with
  | NA => Raise TypeError
  | Text p =>
      match re_search p with
      | None => Raise ReError
      | Some test =>
          Ok (fun c => match c with
                       | NA => false
                       | Text s => test s
                       end)
      end
  end.

Definition search_by_location (self : HezbollahDataIntegrator)
    (country city : option cell) : outcome (list Address.t) :=
  let results := addresses self in
  results <- (if truthy_arg country then
                test <- str_contains (match country with Some c => c | None => NA end) ;;
                Ok (filter (fun a => test (Address.country a)) results)
              else Ok results) ;;
  results <- (if truthy_arg city then
                test <- str_contains (match city with Some c => c | None => NA end) ;;
                Ok (filter (fun a => test (Address.city a)) results)
              else Ok results) ;;
  Ok results.

(** The rows one name adds to [results] in [batch_search_names]. *)
Definition batch_step (self : HezbollahDataIntegrator) (fuzzy : bool)
    (threshold : Z) (name : cell) : list BatchRow.t :=
  let uid := exact_match self name in
  if truthy_uid uid then
    [BatchRow.mk name l_exact uid None 100]
  else if fuzzy then
    let fuzzy_matches := fuzzy_match self name threshold in
    match fuzzy_matches with
    | m :: _ =>
        [BatchRow.mk name l_fuzzy (Some (Match.uid m))
           (Some (Match.ofac_name m)) (Match.match_score m)]
    | [] => [BatchRow.mk name l_no_match None None 0]
    end
  else [].

Definition batch_search_names (self : HezbollahDataIntegrator)
    (names_list : list cell) (fuzzy : bool) (threshold : Z)
  : list BatchRow.t :=
  fold_left
    (fun results name => results ++ batch_step self fuzzy threshold name)
    names_list [].

(** The name matching of one row of [process_new_source]. *)
Definition name_matching (self : HezbollahDataIntegrator)
    (name_column : option text) (r : row) (result : SourceResult.t)
  : SourceResult.t :=
  match (if truthy_arg (option_map Text name_column)
         then row_get (match name_column with Some c => c | None => [] end) r
         else None) with
  | Some name =>
      let uid := exact_match self name in
      if truthy_uid uid then
        SourceResult.mk (SourceResult.source_row result) (Some l_exact) uid
          (SourceResult.match_score result) (Some high)
          (SourceResult.location_matches result)
      else
        let fuzzy := fuzzy_match self name 80 in
        match fuzzy with
        | m :: _ =>
            SourceResult.mk (SourceResult.source_row result) (Some l_fuzzy)
              (Some (Match.uid m)) (Some (Match.match_score m))
              (Some (if 85 <? Match.match_score m then medium else low))
              (SourceResult.location_matches result)
        | [] =>
            SourceResult.mk (SourceResult.source_row result) (Some l_none)
              (SourceResult.ofac_uid result) (SourceResult.match_score result)
              (Some new_entity) (SourceResult.location_matches result)
        end
  | None => result
  end.

(** The location matching of one row. *)
Definition location_matching (self : HezbollahDataIntegrator)
    (location_column : option text) (r : row) (result : SourceResult.t)
  : outcome SourceResult.t :=
  match (if truthy_arg (option_map Text location_column)
         then row_get (match location_column with Some c => c | None => [] end) r
         else None) with
  | Some location =>
      loc_matches <- search_by_location self (Some location) None ;;
      if 0 <? Z.of_nat (length loc_matches) then
        Ok (SourceResult.mk (SourceResult.source_row result)
              (SourceResult.ofac_match result) (SourceResult.ofac_uid result)
              (SourceResult.match_score result) (SourceResult.confidence result)
              (Some (Z.of_nat (length loc_matches))))
      else Ok result
  | None => Ok result
  end.

Definition process_row (self : HezbollahDataIntegrator)
    (name_column location_column : option text) (ir : Z * row)
  : outcome SourceResult.t :=
  let (idx, r) := ir in
  let result := SourceResult.mk idx None None None None None in
  let result := name_matching self name_column r result in
  location_matching self location_column r result.

Definition process_new_source (self : HezbollahDataIntegrator)
    (data : source) (name_column location_column : option text)
  : outcome (list SourceResult.t) :=
  for_each (process_row self name_column location_column) (iterrows data).

End Toolkit.

(* ================================================================= *)
(** ** The index as the specification words it *)

(** The key of the specification: the composed name put through the
    Normalizer. *)
Definition spec_key (first last : cell) : text :=
  normalize_name (Text ((if notna first then fmt first else []) ++ [space] ++ fmt last)).

Definition spec_build_name_index (es : list Entity.t) (als : list Alias.t) : dict :=
  fold_left
    (fun names alias =>
       dict_set (spec_key (Alias.first_name alias) (Alias.last_name alias))
                (Alias.entity_uid alias) names)
    als
    (fold_left
       (fun names entity =>
          dict_set (spec_key (Entity.first_name entity) (Entity.last_name entity))
                   (Entity.uid entity) names)
       es []).

(** The longest prefix of word characters. *)
Fixpoint lead_word (s : text) : text :=
  match s with
  | c :: s' => if isword c then c :: lead_word s' else []
  | [] => []
  end.

Definition dot_len (r : text) : nat :=
  match r with
  | c :: _ => if ascii_eqb c dot then 1%nat else 0%nat
  | [] => 0%nat
  end.

(** No honorific starts at any position of [s]; [pw] tells whether the
    character before [s] is a word character. *)
Fixpoint title_free (pw : bool) (s : text) : Prop :=
  match s with
  | [] => True
  | c :: s' => (pw = true \/ ~ In (lead_word s) titles) /\ title_free (isword c) s'
  end.

Definition head_space (s : text) : bool :=
  match s with
  | c :: _ => isspace c
  | [] => false
  end.

Definition head_word (s : text) : bool :=
  match s with
  | c :: _ => isword c
  | [] => false
  end.

(** [' '.join(s.split())]. *)
Definition collapse (s : text) : text := join [space] (split s).

(** The blank [collapse] puts before the words of [r] when a word was
    already written. *)
Definition gap (r : text) : text :=
  if head_space r then
    match collapse r with
    | [] => []
    | _ => [space]
    end
  else [].

(* ================================================================= *)
(** ** Auxiliary notions of the statements *)

Definition score_desc (l : list Match.t) : Prop :=
  StronglySorted (fun a b => Match.match_score b <= Match.match_score a) l.

(** The entry [fuzzy_match] reports for an item of the index. *)
Definition entry_match (ratio : text -> text -> Z) (normalized : text)
    (name : cell) (item : text * Z) : Match.t :=
  Match.mk (snd item) (fst item) name (ratio normalized (fst item)).

(** The items of the index that score at least [threshold], in the
    iteration order of the index. *)
Definition hits (ratio : text -> text -> Z) (self : HezbollahDataIntegrator)
    (name : cell) (threshold : Z) : list Match.t :=
  map (entry_match ratio (normalize_name name) name)
      (filter (fun item => threshold <=? ratio (normalize_name name) (fst item))
              (name_index self)).


(** The result a row starts from. *)
Definition fresh (idx : Z) : SourceResult.t :=
  SourceResult.mk idx None None None None None.



(* ================================================================= *)
(** ** Sample data *)

(** A similarity that tells equal strings from different ones. *)
Definition ratio_same (a b : text) : Z :=
  if text_eqb a b then 100 else 0.

Fixpoint starts_with (p s : text) : bool :=
  match p, s with
  | [], _ => true
  | x :: p', y :: s' => ascii_eqb x y && starts_with p' s'
  | _ :: _, [] => false
  end.

Fixpoint occurs_in (p s : text) : bool :=
  starts_with p s ||
  match s with
  | [] => false
  | _ :: s' => occurs_in p s'
  end.

(** The search of a pattern without special characters: the pattern
    occurs in the subject, letter case ignored. *)
Definition search_literal (p : text) : option (text -> bool) :=
  Some (fun s => occurs_in (upper p) (upper s)).

Definition jane : Entity.t :=
  Entity.mk 7 (Text (lit "Individual")) (Text (lit "Jane")) (Text (lit "Doe")) NA NA.

Definition acme : Entity.t :=
  Entity.mk 9 (Text (lit "Entity")) NA (Text (lit "Acme Trading")) NA NA.

Definition john_jr : Entity.t :=
  Entity.mk 7 (Text (lit "Individual")) (Text (lit "John")) (Text (lit "Smith Jr.")) NA NA.

Definition jane_aka : Alias.t :=
  Alias.mk 7 70 (Text (lit "a.k.a.")) (Text (lit "strong")) (Text (lit "J.")) (Text (lit "Doe")).

Definition orphan_aka : Alias.t :=
  Alias.mk 5 50 (Text (lit "a.k.a.")) (Text (lit "weak")) NA (Text (lit "Ghost")).

Definition jane_home : Address.t :=
  Address.mk 7 700 NA NA NA (Text (lit "Beirut")) NA NA (Text (lit "Lebanon")).

Definition jane_passport : IdDoc.t :=
  IdDoc.mk 7 7000 (Text (lit "Passport")) (Text (lit "RL123")) (Text (lit "Lebanon")) NA NA.

Definition sample : HezbollahDataIntegrator :=
  init [jane; acme] [jane_aka; orphan_aka] [jane_home] [jane_passport].

(** An integrator whose index maps a name to uid 0. *)
Definition zero_uid : HezbollahDataIntegrator :=
  init [Entity.mk 0 NA (Text (lit "Jane")) (Text (lit "Doe")) NA NA] [] [] [].

Definition name_row (s : string) : row := [(lit "Name", Text (lit s))].

(* ================================================================= *)
(** ** The rest of the toolkit *)

Section Searches.

(** [re.compile(pat, re.IGNORECASE)] followed by [search], as in
    [Toolkit]. *)
Variable re_search : text -> option (text -> bool).

(** [search_by_id]: the number is put through [str] before it becomes a
    pattern, the type is not. *)
Definition search_by_id (self : HezbollahDataIntegrator)
    (id_number id_type : option cell) : outcome (list IdDoc.t) :=
  let results := ids self in
  results <- (if truthy_arg id_number then
                test <- str_contains re_search
                          (Text (fmt (match id_number with Some c => c | None => NA end))) ;;
                Ok (filter (fun d => test (IdDoc.id_number d)) results)
              else Ok results) ;;
  results <- (if truthy_arg id_type then
                test <- str_contains re_search
                          (match id_type with Some c => c | None => NA end) ;;
                Ok (filter (fun d => test (IdDoc.id_type d)) results)
              else Ok results) ;;
  Ok results.

End Searches.

(** The assignments [_build_name_index] makes, in the order it makes
    them: one per entity, then one per alias. *)
Definition assignments (es : list Entity.t) (als : list Alias.t) : list (text * Z) :=
  map (fun e => (full_name (Entity.first_name e) (Entity.last_name e), Entity.uid e)) es ++
  map (fun a => (full_name (Alias.first_name a) (Alias.last_name a), Alias.entity_uid a)) als.

(** The name as [_build_name_index] composes it before any clean-up. *)
Definition composed (first last : cell) : text :=
  (if notna first then fmt first else []) ++ [space] ++ fmt last.



Definition islower (c : ascii) : bool := in_range 97 122 c.
Definition isupper (c : ascii) : bool := in_range 65 90 c.

(** The last character of a text is a word character. *)
Definition ends_word (a : text) : bool := word_opt (last_of None a).

(** The test of the type column in [search_by_id]. *)
Definition id_type_test (test : text -> bool) (d : IdDoc.t) : bool :=
  match IdDoc.id_type d with
  | NA => false
  | Text s => test s
  end.




(** What a row of [batch_search_names] and a result of
    [process_new_source] say about the same name. *)
Definition same_verdict (b : BatchRow.t) (res : SourceResult.t) : Prop :=
  match BatchRow.match_type b with
  | l_exact =>
      SourceResult.ofac_match res = Some l_exact /\
      SourceResult.ofac_uid res = BatchRow.uid b
  | l_fuzzy =>
      SourceResult.ofac_match res = Some l_fuzzy /\
      SourceResult.ofac_uid res = BatchRow.uid b /\
      SourceResult.match_score res = Some (BatchRow.match_score b)
  | l_no_match =>
      SourceResult.ofac_match res = Some l_none /\
      SourceResult.ofac_uid res = None
  | l_none => False
  end.

(** A text of blanks only. *)
Definition blank (w : text) : Prop := Forall (fun c => isspace c = true) w.

(** A match reported for another spelling of the same query. *)
Definition with_input (name : cell) (m : Match.t) : Match.t :=
  Match.mk (Match.uid m) (Match.ofac_name m) name (Match.match_score m).

(** One assignment [names[key] = uid]. *)
Definition assign (d : dict) (kv : text * Z) : dict := dict_set (fst kv) (snd kv) d.


(* ================================================================= *)
(** ** The analysis script (initial-review/analyze_hezbollah.py) *)

Module Program.
Record t := mk { uid : Z; program : cell }.
End Program.

Module Dob.
Record t := mk
  { entity_uid : Z; dob_uid : Z; date_of_birth : cell; main_entry : cell }.
End Dob.

Module Pob.
Record t := mk
  { entity_uid : Z; pob_uid : Z; place_of_birth : cell; main_entry : cell }.
End Pob.

Module Nationality.
Record t := mk
  { entity_uid : Z; nationality_uid : Z; country : cell; main_entry : cell }.
End Nationality.

(** The eight tables the scripts pass around as a dict of frames. *)
Module Dataset.
Record t := mk
  { entities : list Entity.t; programs : list Program.t;
    aliases : list Alias.t; addresses : list Address.t;
    dob : list Dob.t; pob : list Pob.t;
    nationalities : list Nationality.t; ids : list IdDoc.t }.
End Dataset.

(** [Series.unique]: the values in order of first appearance. *)
Fixpoint unique (l : list Z) : list Z :=
  match l with
  | [] => []
  | x :: r => x :: filter (fun y => negb (y =? x)) (unique r)
  end.

(** A Python [set] of uids, kept as a list without repetition.  Python
    fixes no order for [list(a_set)]: of the order of these lists nothing
    is meant but that no uid comes twice. *)
Definition set_add (s : list Z) (x : Z) : list Z :=
  if existsb (Z.eqb x) s then s else s ++ [x].

(** [s.update(l)], and [set(l)] as [set_update [] l]. *)
Definition set_update (s l : list Z) : list Z := fold_left set_add l s.


(** [column.isin(values)] on one cell. *)
Definition cell_in (values : list text) (c : cell) : bool :=
  match c with
  | NA => false
  | Text s => existsb (text_eqb s) values
  end.

(** [column.isin(uids)] on one uid. *)
Definition isin (uids : list Z) (u : Z) : bool := existsb (Z.eqb u) uids.












(** [create_hezbollah_dataset], with the tables it reads. *)
Definition create_hezbollah_dataset (full : Dataset.t) (hezbollah_uids : list Z)
  : Dataset.t :=
  Dataset.mk
    (filter (fun e => isin hezbollah_uids (Entity.uid e)) (Dataset.entities full))
    (filter (fun p => isin hezbollah_uids (Program.uid p)) (Dataset.programs full))
    (filter (fun a => isin hezbollah_uids (Alias.entity_uid a)) (Dataset.aliases full))
    (filter (fun a => isin hezbollah_uids (Address.entity_uid a)) (Dataset.addresses full))
    (filter (fun d => isin hezbollah_uids (Dob.entity_uid d)) (Dataset.dob full))
    (filter (fun p => isin hezbollah_uids (Pob.entity_uid p)) (Dataset.pob full))
    (filter (fun n => isin hezbollah_uids (Nationality.entity_uid n))
            (Dataset.nationalities full))
    (filter (fun d => isin hezbollah_uids (IdDoc.entity_uid d)) (Dataset.ids full)).

Definition south_american_countries : list text :=
  map lit ["Argentina"; "Brazil"; "Paraguay"; "Uruguay";
           "Colombia"; "Venezuela"; "Chile"; "Peru"; "Bolivia";
           "Ecuador"; "Guyana"; "Suriname"; "French Guiana"]%string.

(** The six tables [analyze_south_america] returns. *)
Module SaData.
Record t := mk
  { entities : list Entity.t; addresses : list Address.t;
    nationalities : list Nationality.t; ids : list IdDoc.t;
    programs : list Program.t; aliases : list Alias.t }.
End SaData.

Definition analyze_south_america (hezbollah_data : Dataset.t) : SaData.t * list Z :=
  let sa_addresses :=
    filter (fun a => cell_in south_american_countries (Address.country a))
           (Dataset.addresses hezbollah_data) in
  let sa_address_uids := unique (map Address.entity_uid sa_addresses) in
  let sa_nationalities :=
    filter (fun n => cell_in south_american_countries (Nationality.country n))
           (Dataset.nationalities hezbollah_data) in
  let sa_nationality_uids := unique (map Nationality.entity_uid sa_nationalities) in
  let sa_ids :=
    filter (fun d => cell_in south_american_countries (IdDoc.id_country d))
           (Dataset.ids hezbollah_data) in
  let sa_id_uids := unique (map IdDoc.entity_uid sa_ids) in
  let all_sa_uids :=
    set_update (set_update (set_update [] sa_address_uids) sa_nationality_uids)
               sa_id_uids in
  let sa_entities :=
    filter (fun e => isin all_sa_uids (Entity.uid e)) (Dataset.entities hezbollah_data) in
  let sa_data :=
    SaData.mk sa_entities sa_addresses sa_nationalities sa_ids
      (filter (fun p => isin all_sa_uids (Program.uid p)) (Dataset.programs hezbollah_data))
      (filter (fun a => isin all_sa_uids (Alias.entity_uid a)) (Dataset.aliases hezbollah_data)) in
  (sa_data, all_sa_uids).


(* ================================================================= *)
(** ** [extract_names_from_text]

    [re.findall(r'\b([A-Z][a-z]+(?:\s+[A-Z][a-z]+){1,3})\b', text)]
    followed by [list(set(...))]. *)

(** The length of the longest prefix of lower-case letters, of blanks. *)
Fixpoint lower_run (s : text) : nat :=
  match s with
  | c :: r => if islower c then S (lower_run r) else 0%nat
  | [] => 0%nat
  end.

Fixpoint blank_run (s : text) : nat :=
  match s with
  | c :: r => if isspace c then S (blank_run r) else 0%nat
  | [] => 0%nat
  end.

(** [[A-Z][a-z]+] at the head of [s]: the number of characters taken.
    The run of lower-case letters is taken whole: after a shorter one the
    next character is a lower-case letter, where the pattern goes on with
    a blank or a word boundary. *)
Definition cap_word (s : text) : option nat :=
  match s with
  | c :: r =>
      if isupper c then
        match lower_run r with
        | O => None
        | S n => Some (S (S n))
        end
      else None
  | [] => None
  end.

(** [\s+[A-Z][a-z]+] at the head of [s]; the run of blanks is taken whole
    for the same reason. *)
Definition next_word (s : text) : option nat :=
  match blank_run s with
  | O => None
  | S b =>
      match cap_word (skipn (S b) s) with
      | Some w => Some (S b + w)%nat
      | None => None
      end
  end.

(** [\b] after a word: the next character is no word character. *)
Definition word_end (s : text) : option nat :=
  if head_word s then None else Some 0%nat.

(** [(?:\s+[A-Z][a-z]+){need,most}\b]: the repetition is greedy, and an
    iteration is given up when what follows it fails. *)
Fixpoint more_words (most need : nat) (s : text) : option nat :=
  match most with
  | O => match need with O => word_end s | S _ => None end
  | S most' =>
      let stop := match need with O => word_end s | S _ => None end in
      match next_word s with
      | Some n =>
          match more_words most' (pred need) (skipn n s) with
          | Some m => Some (n + m)%nat
          | None => stop
          end
      | None => stop
      end
  end.

(** The whole pattern at a position whose preceding character is
    [prev]. *)
Definition name_at (prev : option ascii) (s : text) : option nat :=
  if boundary prev (hd_error s) then
    match cap_word s with
    | Some n =>
        match more_words 3 1 (skipn n s) with
        | Some m => Some (n + m)%nat
        | None => None
        end
    | None => None
    end
  else None.

(** The scan of [re.findall]: the matches from left to right, none
    overlapping another. *)
Fixpoint findall_from (prev : option ascii) (skip : nat) (s : text) : list text :=
  match s with
  | [] => []
  | c :: rest =>
      match skip with
      | S k => findall_from (Some c) k rest
      | O =>
          match name_at prev s with
          | Some (S k) => firstn (S k) s :: findall_from (Some c) k rest
          | _ => findall_from (Some c) 0 rest
          end
      end
  end.

(** The distinct strings of a list. *)
Fixpoint distinct (l : list text) : list text :=
  match l with
  | [] => []
  | x :: r => x :: filter (fun y => negb (text_eqb y x)) (distinct r)
  end.

(** [list(set(matches))]: Python fixes no order for the result; of the
    order of this list nothing is meant but that no string comes twice. *)
Definition extract_names_from_text (t : text) : list text :=
  let matches := findall_from None 0 t in
  distinct matches.

(** A capitalised word: an upper-case letter and one or more lower-case
    letters. *)
Inductive capword : text -> Prop :=
| capword_intro (c : ascii) (ls : text) :
    isupper c = true -> ls <> [] -> Forall (fun x => islower x = true) ls ->
    capword (c :: ls).

(** [k] capitalised words, each after one or more blanks. *)
Inductive tail_of : nat -> text -> Prop :=
| tail_nil : tail_of 0 []
| tail_cons (k : nat) (b w t : text) :
    b <> [] -> blank b -> capword w -> tail_of k t ->
    tail_of (S k) (b ++ w ++ t).

(* ================================================================= *)
(** ** Sample tables of the analysis script *)

Definition acme_office : Address.t :=
  Address.mk 9 900 NA NA NA (Text (lit "Ciudad del Este")) NA NA (Text (lit "Paraguay")).

Definition sample_data : Dataset.t :=
  Dataset.mk [jane; acme]
    [Program.mk 7 (Text (lit "LEBANON")); Program.mk 9 (Text (lit "SDGT"))]
    [jane_aka; orphan_aka] [jane_home; acme_office] [] []
    [Nationality.mk 7 71 (Text (lit "Lebanon")) NA] [jane_passport].

Definition jane_profile : Profile.t :=
  Profile.mk 7 jane [jane_aka] [jane_home] [jane_passport].

Definition acme_profile : Profile.t := Profile.mk 9 acme [] [] [].

(* ================================================================= *)
(** * Proofs *)

(** ** Characters *)

Ltac ascii_cases c := destruct c as [[] [] [] [] [] [] [] []].

Lemma isspace_not_word (c : ascii) : isspace c = true -> isword c = false.
Proof. ascii_cases c; vm_compute; congruence. Qed.

Lemma upper_char_idem (c : ascii) : upper_char (upper_char c) = upper_char c.
Proof. ascii_cases c; reflexivity. Qed.

Lemma space_is_blank : isspace space = true.
Proof. reflexivity. Qed.

Lemma ascii_eqb_true (a b : ascii) : ascii_eqb a b = true <-> a = b.
Proof. apply Ascii.eqb_eq. Qed.

Lemma ascii_eqb_refl (a : ascii) : ascii_eqb a a = true.
Proof. apply ascii_eqb_true; reflexivity. Qed.

Lemma text_eqb_true (a b : text) : text_eqb a b = true <-> a = b.
Proof.
  revert b; induction a as [|x a IH]; intros [|y b]; simpl; split;
    try congruence; try reflexivity.
  - intros H. apply andb_true_iff in H as [H1 H2].
    apply ascii_eqb_true in H1. apply IH in H2. congruence.
  - intros H. inversion H; subst. rewrite ascii_eqb_refl. simpl.
    apply IH; reflexivity.
Qed.

Lemma text_eqb_refl (a : text) : text_eqb a a = true.
Proof. apply text_eqb_true; reflexivity. Qed.

Lemma text_eqb_false (a b : text) : text_eqb a b = false <-> a <> b.
Proof.
  split.
  - intros H E. apply text_eqb_true in E. congruence.
  - intros H. destruct (text_eqb a b) eqn:E; [|reflexivity].
    apply text_eqb_true in E. contradiction.
Qed.

Lemma drop_prefix_Some (t s r : text) : drop_prefix t s = Some r <-> s = t ++ r.
Proof.
  revert s; induction t as [|x t IH]; intros s; simpl.
  - split; congruence.
  - destruct s as [|y s]; [split; discriminate|].
    destruct (ascii_eqb x y) eqn:E.
    + apply ascii_eqb_true in E; subst y. rewrite IH. split; congruence.
    + split; [discriminate|]. intros H. inversion H; subst.
      rewrite ascii_eqb_refl in E. discriminate.
Qed.

(** ** Leading words *)

Lemma lead_word_app (w r : text) :
  forallb isword w = true -> lead_word (w ++ r) = w ++ lead_word r.
Proof.
  induction w as [|c w IH]; simpl; [reflexivity|].
  intros H. apply andb_true_iff in H as [Hc Hw]. rewrite Hc, IH by exact Hw.
  reflexivity.
Qed.

Lemma lead_word_head (s : text) : head_word s = false -> lead_word s = [].
Proof. destruct s as [|c s]; simpl; [reflexivity|]. intros ->. reflexivity. Qed.

Lemma lead_word_split (s : text) :
  exists r, s = lead_word s ++ r /\ head_word r = false.
Proof.
  induction s as [|c s [r [E H]]]; simpl.
  - exists []. split; reflexivity.
  - destruct (isword c) eqn:Ec.
    + exists r. split; [simpl; congruence|exact H].
    + exists (c :: s). split; [reflexivity|exact Ec].
Qed.

Lemma titles_words : forall t, In t titles -> t <> [] /\ forallb isword t = true.
Proof.
  intros t H. vm_compute in H.
  repeat (destruct H as [<-|H]; [split; [discriminate|reflexivity]|]).
  contradiction.
Qed.

(** ** One alternative of the pattern *)

Lemma last_of_word (p : option ascii) (t : text) :
  t <> [] -> forallb isword t = true -> word_opt (last_of p t) = true.
Proof.
  intros Hne Hw. unfold last_of. destruct (rev t) as [|c l] eqn:E.
  - apply (f_equal (@rev ascii)) in E. rewrite rev_involutive in E. contradiction.
  - simpl. rewrite forallb_forall in Hw. apply Hw, in_rev. rewrite E. left; reflexivity.
Qed.

Lemma last_of_cons (p : option ascii) (c : ascii) (t : text) :
  last_of p (c :: t) = last_of (Some c) t.
Proof.
  unfold last_of. simpl. destruct (rev t); reflexivity.
Qed.

Lemma try_alt_Some (p : option ascii) (s t : text) (n : nat) :
  t <> [] -> forallb isword t = true -> try_alt p s t = Some n ->
  word_opt p = false /\ lead_word s = t /\
  exists r, s = t ++ r /\ head_word r = false /\ n = (length t + dot_len r)%nat.
Proof.
  intros Hne Hw. unfold try_alt.
  destruct (boundary p (hd_error s)) eqn:B; [|discriminate].
  destruct (drop_prefix t s) as [r|] eqn:D; [|discriminate].
  apply drop_prefix_Some in D. subst s.
  destruct (boundary (last_of p t) (hd_error r)) eqn:B2; [|discriminate].
  unfold boundary in B2. rewrite (last_of_word p t Hne Hw) in B2.
  assert (Hr : head_word r = false).
  { destruct r as [|d r]; [reflexivity|]. simpl in *.
    destruct (isword d); [discriminate|reflexivity]. }
  assert (Hp : word_opt p = false).
  { destruct t as [|x t]; [contradiction|]. simpl in Hw, B.
    apply andb_true_iff in Hw as [Hx _]. unfold boundary in B. simpl in B.
    rewrite Hx in B. destruct (word_opt p); [discriminate|reflexivity]. }
  intros H. split; [exact Hp|]. split.
  - rewrite lead_word_app, (lead_word_head r Hr), app_nil_r by assumption. reflexivity.
  - exists r. split; [reflexivity|]. split; [exact Hr|].
    destruct r as [|d r]; simpl in *.
    + inversion H. lia.
    + destruct (ascii_eqb d dot); inversion H; lia.
Qed.

Lemma try_alt_lead (p : option ascii) (s : text) :
  word_opt p = false -> In (lead_word s) titles ->
  exists n, try_alt p s (lead_word s) = Some n.
Proof.
  intros Hp Hin. destruct (titles_words _ Hin) as [Hne Hw].
  destruct (lead_word_split s) as [r [E Hr]].
  unfold try_alt.
  assert (B : boundary p (hd_error s) = true).
  { destruct s as [|c s]; [contradiction Hne; reflexivity|].
    simpl in *. destruct (isword c) eqn:Ec; [|contradiction Hne; reflexivity].
    unfold boundary. simpl. rewrite Hp, Ec. reflexivity. }
  rewrite B.
  assert (D : drop_prefix (lead_word s) s = Some r) by (apply drop_prefix_Some; exact E).
  rewrite D.
  assert (B2 : boundary (last_of p (lead_word s)) (hd_error r) = true).
  { unfold boundary. rewrite (last_of_word p _ Hne Hw).
    destruct r as [|d r]; [reflexivity|]. simpl in *. rewrite Hr. reflexivity. }
  rewrite B2. destruct r as [|d r]; [eauto|]. destruct (ascii_eqb d dot); eauto.
Qed.

Lemma first_alt_Some (p : option ascii) (s : text) (alts : list text) (n : nat) :
  first_alt p s alts = Some n -> exists t, In t alts /\ try_alt p s t = Some n.
Proof.
  induction alts as [|t alts IH]; simpl; [discriminate|].
  destruct (try_alt p s t) as [m|] eqn:E.
  - intros H. inversion H; subst. exists t. split; [left; reflexivity|exact E].
  - intros H. destruct (IH H) as [t' [Hin Ht]]. exists t'. split; [right|]; assumption.
Qed.

Lemma first_alt_None (p : option ascii) (s : text) (alts : list text) :
  first_alt p s alts = None -> forall t, In t alts -> try_alt p s t = None.
Proof.
  induction alts as [|t alts IH]; simpl; [contradiction|].
  destruct (try_alt p s t) eqn:E; [discriminate|].
  intros H t' [<-|Hin]; [exact E|exact (IH H t' Hin)].
Qed.

(** ** Where the pattern matches *)

Lemma match_title_Some (p : option ascii) (s : text) (n : nat) :
  match_title p s = Some n ->
  word_opt p = false /\
  exists w r, s = w ++ r /\ In w titles /\ lead_word s = w /\
              head_word r = false /\ n = (length w + dot_len r)%nat.
Proof.
  intros H. apply first_alt_Some in H as [t [Hin Ht]].
  destruct (titles_words _ Hin) as [Hne Hw].
  destruct (try_alt_Some _ _ _ _ Hne Hw Ht) as [Hp [Hl [r [E [Hr Hn]]]]].
  split; [exact Hp|]. exists t, r. tauto.
Qed.

Lemma match_title_None (p : option ascii) (s : text) :
  match_title p s = None -> word_opt p = true \/ ~ In (lead_word s) titles.
Proof.
  intros H. destruct (word_opt p) eqn:Hp; [left; reflexivity|right].
  intros Hin. destruct (try_alt_lead p s Hp Hin) as [n Hn].
  rewrite (first_alt_None _ _ _ H _ Hin) in Hn. discriminate.
Qed.

Lemma match_title_word (p : option ascii) (s : text) :
  word_opt p = true -> match_title p s = None.
Proof.
  intros Hp. destruct (match_title p s) eqn:M; [|reflexivity].
  apply match_title_Some in M as [M _]. congruence.
Qed.

Lemma match_title_other (p : option ascii) (s : text) :
  ~ In (lead_word s) titles -> match_title p s = None.
Proof.
  intros Hn. destruct (match_title p s) eqn:M; [|reflexivity].
  apply match_title_Some in M as [_ [w [r [_ [Hin [Hl _]]]]]].
  subst w. contradiction.
Qed.

Lemma nil_not_title : ~ In [] titles.
Proof. intros H. apply titles_words in H as [H _]. apply H; reflexivity. Qed.

(** ** The scan *)

Lemma sub_from_skip (pre rest : text) (p : option ascii) :
  sub_from p (length pre) (pre ++ rest) = sub_from (last_of p pre) 0 rest.
Proof.
  revert p; induction pre as [|c pre IH]; intros p.
  - reflexivity.
  - simpl. rewrite IH, last_of_cons. reflexivity.
Qed.

Lemma sub_from_match (p : option ascii) (s : text) (n : nat) :
  match_title p s = Some n -> sub_from p 0 s = sub_from p n s.
Proof.
  intros M. destruct (match_title_Some _ _ _ M) as [_ [w [r [E [Hin [_ [_ Hn]]]]]]].
  destruct (titles_words _ Hin) as [Hne _].
  destruct s as [|c s]; [destruct w; [contradiction Hne; reflexivity|discriminate]|].
  destruct n as [|k]; [destruct w; [contradiction Hne; reflexivity|simpl in Hn; lia]|].
  simpl sub_from at 1. rewrite M. reflexivity.
Qed.

Lemma sub_from_keep (p : option ascii) (c : ascii) (s : text) :
  match_title p (c :: s) = None ->
  sub_from p 0 (c :: s) = c :: sub_from (Some c) 0 s.
Proof. intros M. simpl. rewrite M. reflexivity. Qed.

Lemma sub_from_lead (s : text) (p : option ascii) :
  word_opt p = true -> lead_word (sub_from p 0 s) = lead_word s.
Proof.
  revert p; induction s as [|c s IH]; intros p Hp; [reflexivity|].
  rewrite sub_from_keep by (apply match_title_word; exact Hp).
  simpl. destruct (isword c) eqn:Ec; [|reflexivity].
  rewrite IH by exact Ec. reflexivity.
Qed.

Lemma sub_from_title_free (n : nat) :
  forall (s : text) (p : option ascii) (qw : bool),
    (length s <= n)%nat ->
    (qw = false -> word_opt p = false \/ head_word s = false) ->
    title_free qw (sub_from p 0 s).
Proof.
  induction n as [|n IH]; intros s p qw Hlen Hq.
  - destruct s; [exact I|simpl in Hlen; lia].
  - destruct s as [|c s]; [exact I|].
    destruct (match_title p (c :: s)) as [k|] eqn:M.
    + rewrite (sub_from_match _ _ _ M).
      destruct (match_title_Some _ _ _ M) as [Hp [w [r [E [Hin [_ [Hr Hk]]]]]]].
      destruct (titles_words _ Hin) as [Hne Hw].
      assert (Hwl : (0 < length w)%nat) by (destruct w; [contradiction|simpl; lia]).
      assert (Hl : (length w + length r <= S n)%nat).
      { rewrite <- length_app, <- E. exact Hlen. }
      rewrite E. destruct r as [|d r].
      * simpl in Hk. rewrite Nat.add_0_r in Hk. subst k.
        rewrite sub_from_skip. exact I.
      * simpl in Hk, Hl. destruct (ascii_eqb d dot) eqn:Ed.
        -- apply ascii_eqb_true in Ed. subst d.
           replace (w ++ dot :: r) with ((w ++ [dot]) ++ r) by (rewrite <- app_assoc; reflexivity).
           replace k with (length (w ++ [dot])) by (rewrite length_app; simpl; lia).
           rewrite sub_from_skip. apply IH; [lia|].
           intros _. left. unfold last_of. rewrite rev_app_distr. reflexivity.
        -- rewrite Nat.add_0_r in Hk. subst k. rewrite sub_from_skip.
           apply IH; [simpl; lia|]. intros _. right. exact Hr.
    + rewrite (sub_from_keep _ _ _ M). simpl in Hlen. split.
      * destruct qw; [left; reflexivity|right].
        simpl lead_word. destruct (isword c) eqn:Ec; [|apply nil_not_title].
        rewrite sub_from_lead by exact Ec.
        destruct (Hq eq_refl) as [Hp|Hc]; [|simpl in Hc; congruence].
        destruct (match_title_None _ _ M) as [Hp'|Hn]; [congruence|].
        simpl in Hn. rewrite Ec in Hn. exact Hn.
      * apply IH; [lia|]. intros Hc. left. exact Hc.
Qed.

Lemma sub_titles_free (s : text) : title_free false (sub_titles s).
Proof.
  apply (sub_from_title_free (length s)); [lia|]. intros _. left; reflexivity.
Qed.

Lemma sub_from_fixed (s : text) (p : option ascii) :
  title_free (word_opt p) s -> sub_from p 0 s = s.
Proof.
  revert p; induction s as [|c s IH]; intros p H; [reflexivity|].
  destruct H as [H1 H2]. rewrite sub_from_keep.
  - rewrite IH by exact H2. reflexivity.
  - destruct H1 as [H1|H1]; [apply match_title_word|apply match_title_other]; exact H1.
Qed.

Lemma sub_from_Forall (P : ascii -> Prop) (s : text) :
  Forall P s -> forall p k, Forall P (sub_from p k s).
Proof.
  induction 1 as [|c s Hc Hs IH]; intros p k; simpl; [constructor|].
  destruct k; [|apply IH].
  destruct (match_title p (c :: s)) as [[|j]|]; try (constructor; [exact Hc|apply IH]).
  apply IH.
Qed.

(** ** Whitespace *)

Lemma split_blank (c : ascii) (r : text) :
  isspace c = true -> split (c :: r) = split r.
Proof. intros H. simpl. rewrite H. reflexivity. Qed.

Lemma split_words (s : text) : Forall (fun w => w <> []) (split s).
Proof.
  induction s as [|c s IH]; simpl; [constructor|].
  destruct (isspace c); [exact IH|].
  destruct s as [|d s']; [repeat constructor; discriminate|].
  destruct (isspace d).
  - constructor; [discriminate|exact IH].
  - destruct (split (d :: s')) as [|w ws]; [repeat constructor; discriminate|].
    inversion IH; subst. constructor; [discriminate|assumption].
Qed.

Lemma split_starts (d : ascii) (s : text) :
  isspace d = false -> split (d :: s) <> [].
Proof.
  intros H. simpl. rewrite H. destruct s as [|e s]; [discriminate|].
  destruct (isspace e); [discriminate|].
  destruct (split (e :: s)); discriminate.
Qed.

Lemma join_cons (c : ascii) (w : text) (ws : list text) :
  join [space] ((c :: w) :: ws) = c :: join [space] (w :: ws).
Proof. destruct ws; reflexivity. Qed.

Lemma collapse_blank (c : ascii) (r : text) :
  isspace c = true -> collapse (c :: r) = collapse r.
Proof. intros H. unfold collapse. rewrite split_blank by exact H. reflexivity. Qed.

Lemma collapse_cons (c : ascii) (r : text) :
  isspace c = false -> collapse (c :: r) = c :: gap r ++ collapse r.
Proof.
  intros H. unfold gap, collapse. simpl split. rewrite H.
  destruct r as [|d r]; [reflexivity|]. simpl head_space.
  destruct (isspace d) eqn:Ed.
  - pose proof (split_words (d :: r)) as W.
    destruct (split (d :: r)) as [|w ws]; [reflexivity|].
    inversion W; subst.
    assert (Hj : join [space] (w :: ws) <> []).
    { destruct w; [contradiction|]. rewrite join_cons. discriminate. }
    change (join [space] ([c] :: w :: ws))
      with ([c] ++ [space] ++ join [space] (w :: ws)).
    destruct (join [space] (w :: ws)); [contradiction|reflexivity].
  - pose proof (split_starts d r Ed) as N.
    destruct (split (d :: r)) as [|w ws]; [contradiction|].
    rewrite join_cons. reflexivity.
Qed.

Lemma collapse_head (s : text) : head_space (collapse s) = false.
Proof.
  induction s as [|c s IH]; [reflexivity|].
  destruct (isspace c) eqn:E.
  - rewrite collapse_blank by exact E. exact IH.
  - rewrite collapse_cons by exact E. exact E.
Qed.

Lemma gap_cases (r : text) :
  (gap r = [] /\ (head_space r = false \/ collapse r = [])) \/
  (gap r = [space] /\ head_space r = true /\ collapse r <> []).
Proof.
  unfold gap. destruct (head_space r).
  - destruct (collapse r); [left|right]; repeat split; auto; discriminate.
  - left. split; auto.
Qed.

Lemma collapse_idem (s : text) : collapse (collapse s) = collapse s.
Proof.
  induction s as [|c s IH]; [reflexivity|].
  destruct (isspace c) eqn:E.
  - rewrite collapse_blank by exact E. exact IH.
  - rewrite (collapse_cons c s E), collapse_cons by exact E. f_equal.
    destruct (gap_cases s) as [[G H]|[G [H N]]]; rewrite G; simpl.
    + unfold gap. rewrite collapse_head. exact IH.
    + rewrite collapse_blank by reflexivity. rewrite IH.
      unfold gap. simpl head_space. rewrite space_is_blank.
      rewrite collapse_blank, IH by reflexivity.
      destruct (collapse s); [contradiction|reflexivity].
Qed.

Lemma collapse_Forall (P : ascii -> Prop) (s : text) :
  P space -> Forall P s -> Forall P (collapse s).
Proof.
  intros Hs. induction 1 as [|c s Hc H IH]; [constructor|].
  destruct (isspace c) eqn:E.
  - rewrite collapse_blank by exact E. exact IH.
  - rewrite collapse_cons by exact E. constructor; [exact Hc|].
    destruct (gap_cases s) as [[G _]|[G _]]; rewrite G; simpl; auto.
Qed.

Lemma gap_collapse_lead (r : text) : lead_word (gap r ++ collapse r) = lead_word r.
Proof.
  induction r as [|d r IH]; [reflexivity|].
  destruct (isspace d) eqn:E.
  - pose proof (isspace_not_word d E) as W. simpl lead_word at 2. rewrite W.
    destruct (gap_cases (d :: r)) as [[G [H|H]]|[G _]]; rewrite G; simpl.
    + simpl in H. congruence.
    + rewrite H. reflexivity.
    + reflexivity.
  - unfold gap at 1. simpl head_space. rewrite E. simpl app.
    rewrite collapse_cons by exact E. simpl. rewrite IH. reflexivity.
Qed.

Lemma collapse_title_free (s : text) :
  forall pw, title_free pw s ->
             title_free (pw && negb (head_space s)) (collapse s).
Proof.
  induction s as [|c s IH]; intros pw H; [exact I|].
  destruct H as [H1 H2]. simpl head_space.
  destruct (isspace c) eqn:E.
  - rewrite collapse_blank by exact E. rewrite andb_false_r.
    rewrite (isspace_not_word c E) in H2. apply IH in H2.
    simpl in H2. exact H2.
  - rewrite collapse_cons by exact E. rewrite andb_true_r. split.
    + destruct H1 as [H1|H1]; [left; exact H1|right].
      simpl lead_word in *. destruct (isword c); [|exact H1].
      rewrite gap_collapse_lead. exact H1.
    + apply IH in H2.
      destruct (gap_cases s) as [[G [Hh|Hh]]|[G [Hh _]]]; rewrite G; simpl.
      * rewrite Hh, andb_true_r in H2. exact H2.
      * rewrite Hh. exact I.
      * rewrite Hh, andb_false_r in H2. split; [|exact H2].
        right. apply nil_not_title.
Qed.

(** ** Upper case *)

Lemma upper_fixed (s : text) :
  Forall (fun c => upper_char c = c) s -> upper s = s.
Proof.
  induction 1 as [|c s Hc H IH]; [reflexivity|].
  unfold upper in *. simpl. rewrite Hc, IH. reflexivity.
Qed.

Lemma upper_stable (s : text) : Forall (fun c => upper_char c = c) (upper s).
Proof.
  induction s as [|c s IH]; [constructor|].
  constructor; [apply upper_char_idem|exact IH].
Qed.

Lemma upper_idem (s : text) : upper (upper s) = upper s.
Proof. apply upper_fixed, upper_stable. Qed.

(** ** The canonical form *)

Lemma normalize_name_text (s : text) :
  normalize_name (Text s) = collapse (sub_titles (upper s)).
Proof. reflexivity. Qed.

Lemma normalize_name_upper (x : cell) :
  Forall (fun c => upper_char c = c) (normalize_name x).
Proof.
  destruct x as [|s]; [constructor|]. rewrite normalize_name_text.
  apply collapse_Forall; [reflexivity|].
  apply sub_from_Forall, upper_stable.
Qed.

Lemma normalize_name_title_free (x : cell) : title_free false (normalize_name x).
Proof.
  destruct x as [|s]; [exact I|]. rewrite normalize_name_text.
  exact (collapse_title_free _ false (sub_titles_free _)).
Qed.

Lemma normalize_name_fixed (y : text) :
  Forall (fun c => upper_char c = c) y -> title_free false y -> collapse y = y ->
  normalize_name (Text y) = y.
Proof.
  intros Hu Ht Hc. rewrite normalize_name_text, (upper_fixed y Hu).
  unfold sub_titles. rewrite (sub_from_fixed y None Ht). exact Hc.
Qed.


(** ** Dictionaries *)

Lemma dict_get_In (d : dict) (k : text) (v : Z) :
  NoDup (keys d) -> In (k, v) d -> dict_get k d = Some v.
Proof.
  induction d as [|[k' v'] d IH]; simpl; [contradiction|].
  intros N H. inversion N as [|? ? Hk Hd]; subst.
  destruct H as [H|H].
  - inversion H; subst. rewrite text_eqb_refl. reflexivity.
  - destruct (text_eqb k' k) eqn:E; [|exact (IH Hd H)].
    apply text_eqb_true in E. subst k'. exfalso. apply Hk.
    change k with (fst (k, v)). apply in_map. exact H.
Qed.

Lemma dict_get_Some (d : dict) (k : text) (v : Z) :
  dict_get k d = Some v -> In (k, v) d.
Proof.
  induction d as [|[k' v'] d IH]; simpl; [discriminate|].
  destruct (text_eqb k' k) eqn:E.
  - apply text_eqb_true in E. intros H. inversion H; subst. left; reflexivity.
  - intros H. right. exact (IH H).
Qed.

Lemma dict_get_None (d : dict) (k : text) :
  ~ In k (keys d) -> dict_get k d = None.
Proof.
  induction d as [|[k' v'] d IH]; simpl; [reflexivity|].
  intros H. destruct (text_eqb k' k) eqn:E.
  - apply text_eqb_true in E. exfalso. apply H. left. exact E.
  - apply IH. intros Hin. apply H. right. exact Hin.
Qed.

Lemma dict_set_keys (k : text) (v : Z) (d : dict) :
  keys (dict_set k v d) =
  match dict_get k d with
  | Some _ => keys d
  | None => keys d ++ [k]
  end.
Proof.
  induction d as [|[k' v'] d IH]; simpl; [reflexivity|].
  destruct (text_eqb k' k) eqn:E; simpl; [reflexivity|].
  unfold keys in *. rewrite IH. destruct (dict_get k d); reflexivity.
Qed.

Lemma dict_set_NoDup (k : text) (v : Z) (d : dict) :
  NoDup (keys d) -> NoDup (keys (dict_set k v d)).
Proof.
  intros N. rewrite dict_set_keys. destruct (dict_get k d) as [u|] eqn:G; [exact N|].
  apply NoDup_rev in N. rewrite <- (rev_involutive (keys d ++ [k])).
  apply NoDup_rev. rewrite rev_app_distr. simpl. constructor; [|exact N].
  rewrite <- in_rev. intros Hin. unfold keys in Hin. apply in_map_iff in Hin.
  destruct Hin as [[k' u] [E Hin]]. simpl in E. subst k'.
  rewrite (dict_get_In d k u) in G; [discriminate| |exact Hin].
  apply NoDup_rev in N. rewrite rev_involutive in N. exact N.
Qed.

Lemma dict_get_set (k k' : text) (v : Z) (d : dict) :
  dict_get k' (dict_set k v d) = if text_eqb k k' then Some v else dict_get k' d.
Proof.
  induction d as [|[k0 v0] d IH]; simpl.
  - reflexivity.
  - destruct (text_eqb k0 k) eqn:E; simpl.
    + apply text_eqb_true in E. subst k0. destruct (text_eqb k k'); reflexivity.
    + rewrite IH. destruct (text_eqb k0 k') eqn:E'; [|reflexivity].
      apply text_eqb_true in E'. subst k0.
      rewrite text_eqb_false in E.
      destruct (text_eqb k k') eqn:E2; [|reflexivity].
      apply text_eqb_true in E2. congruence.
Qed.

Lemma fold_set_NoDup {A : Type} (key : A -> text) (val : A -> Z) (l : list A) :
  forall d, NoDup (keys d) ->
            NoDup (keys (fold_left (fun names x => dict_set (key x) (val x) names) l d)).
Proof.
  induction l as [|x l IH]; intros d N; simpl; [exact N|].
  apply IH, dict_set_NoDup, N.
Qed.

(** The index [_build_name_index] returns has no key twice. *)
Lemma build_name_index_NoDup (es : list Entity.t) (als : list Alias.t) :
  NoDup (keys (_build_name_index es als)).
Proof.
  unfold _build_name_index.
  apply (fold_set_NoDup (fun a => full_name (Alias.first_name a) (Alias.last_name a))
           Alias.entity_uid).
  apply (fold_set_NoDup (fun e => full_name (Entity.first_name e) (Entity.last_name e))
           Entity.uid).
  constructor.
Qed.

(** ** Sorting by score *)

Lemma insert_desc_perm (m : Match.t) (l : list Match.t) :
  Permutation (insert_desc m l) (m :: l).
Proof.
  induction l as [|x l IH]; simpl; [reflexivity|].
  destruct (Match.match_score m <? Match.match_score x); [|reflexivity].
  rewrite IH. apply perm_swap.
Qed.

Lemma sorted_desc_perm (l : list Match.t) : Permutation (sorted_desc l) l.
Proof.
  induction l as [|m l IH]; simpl; [reflexivity|].
  rewrite insert_desc_perm, IH. reflexivity.
Qed.

Lemma insert_desc_sorted (m : Match.t) (l : list Match.t) :
  score_desc l -> score_desc (insert_desc m l).
Proof.
  unfold score_desc. induction 1 as [|x l Hl IH Hx]; simpl.
  - repeat constructor.
  - destruct (Match.match_score m <? Match.match_score x) eqn:E.
    + apply Z.ltb_lt in E. constructor; [exact IH|].
      rewrite Forall_forall in *. intros y Hy.
      apply (Permutation_in _ (insert_desc_perm m l)) in Hy.
      destruct Hy as [<-|Hy]; [lia|exact (Hx y Hy)].
    + apply Z.ltb_ge in E. constructor; [constructor; assumption|].
      constructor; [exact E|]. rewrite Forall_forall in *. intros y Hy.
      specialize (Hx y Hy). lia.
Qed.

Lemma sorted_desc_sorted (l : list Match.t) : score_desc (sorted_desc l).
Proof.
  induction l as [|m l IH]; simpl; [constructor|].
  apply insert_desc_sorted, IH.
Qed.

Lemma insert_desc_head (m : Match.t) (l : list Match.t) :
  Forall (fun y => Match.match_score y <= Match.match_score m) l ->
  insert_desc m l = m :: l.
Proof.
  destruct 1 as [|x l Hx _]; simpl; [reflexivity|].
  destruct (Match.match_score m <? Match.match_score x) eqn:E; [|reflexivity].
  apply Z.ltb_lt in E. lia.
Qed.

Lemma insert_desc_filter (f : Match.t -> bool) (m : Match.t) (l : list Match.t) :
  score_desc l ->
  filter f (insert_desc m l) = if f m then insert_desc m (filter f l) else filter f l.
Proof.
  unfold score_desc. induction 1 as [|x l Hl IH Hx]; simpl.
  - destruct (f m); reflexivity.
  - destruct (Match.match_score m <? Match.match_score x) eqn:E; simpl.
    + rewrite IH. destruct (f x), (f m); simpl; try rewrite E; reflexivity.
    + destruct (f m) eqn:Fm, (f x) eqn:Fx; simpl; try rewrite E; try reflexivity.
      symmetry. apply insert_desc_head. apply Z.ltb_ge in E.
      rewrite Forall_forall in *. intros y Hy. apply filter_In in Hy as [Hy _].
      specialize (Hx y Hy). simpl in Hx. lia.
Qed.

Lemma sorted_desc_filter (f : Match.t -> bool) (l : list Match.t) :
  sorted_desc (filter f l) = filter f (sorted_desc l).
Proof.
  induction l as [|m l IH]; simpl; [reflexivity|].
  rewrite insert_desc_filter by apply sorted_desc_sorted.
  destruct (f m); simpl; rewrite IH; reflexivity.
Qed.

(** Entries of equal score keep the order they had before the sort. *)
Lemma insert_desc_ties (v : Z) (m : Match.t) (l : list Match.t) :
  filter (fun x => Match.match_score x =? v) (insert_desc m l) =
  filter (fun x => Match.match_score x =? v) (m :: l).
Proof.
  induction l as [|x l IH]; [reflexivity|]. simpl insert_desc.
  destruct (Match.match_score m <? Match.match_score x) eqn:E; [|reflexivity].
  apply Z.ltb_lt in E. simpl in *. rewrite IH.
  destruct (Match.match_score x =? v) eqn:Ex, (Match.match_score m =? v) eqn:Em;
    try reflexivity.
  apply Z.eqb_eq in Ex, Em. lia.
Qed.

Lemma sorted_desc_ties (v : Z) (l : list Match.t) :
  filter (fun x => Match.match_score x =? v) (sorted_desc l) =
  filter (fun x => Match.match_score x =? v) l.
Proof.
  induction l as [|m l IH]; [reflexivity|].
  simpl sorted_desc. rewrite insert_desc_ties. simpl. rewrite IH. reflexivity.
Qed.

(** ** Exact and fuzzy matching *)

Section Matching.

Variable ratio : text -> text -> Z.

Lemma fuzzy_scan_hits (self : HezbollahDataIntegrator) (name : cell) (threshold : Z) :
  fuzzy_scan ratio (normalize_name name) name threshold (name_index self) =
  hits ratio self name threshold.
Proof.
  unfold hits. induction (name_index self) as [|[k u] d IH]; simpl; [reflexivity|].
  destruct (threshold <=? ratio (normalize_name name) k); simpl; rewrite IH; reflexivity.
Qed.

Lemma fuzzy_match_hits (self : HezbollahDataIntegrator) (name : cell) (threshold : Z) :
  fuzzy_match ratio self name threshold = sorted_desc (hits ratio self name threshold).
Proof. unfold fuzzy_match. rewrite fuzzy_scan_hits. reflexivity. Qed.

Lemma hits_score (self : HezbollahDataIntegrator) (name : cell) (threshold : Z) (m : Match.t) :
  In m (hits ratio self name threshold) <->
  exists k u, In (k, u) (name_index self) /\
              threshold <= ratio (normalize_name name) k /\
              m = Match.mk u k name (ratio (normalize_name name) k).
Proof.
  unfold hits. rewrite in_map_iff. split.
  - intros [[k u] [E H]]. apply filter_In in H as [H1 H2]. simpl in H2.
    apply Z.leb_le in H2. exists k, u. repeat split; auto.
  - intros [k [u [H1 [H2 E]]]]. exists (k, u). split; [symmetry; exact E|].
    apply filter_In. split; [exact H1|]. simpl. apply Z.leb_le. exact H2.
Qed.

Lemma fuzzy_match_In (self : HezbollahDataIntegrator) (name : cell) (threshold : Z) (m : Match.t) :
  In m (fuzzy_match ratio self name threshold) <-> In m (hits ratio self name threshold).
Proof.
  rewrite fuzzy_match_hits. split; apply Permutation_in;
    [|symmetry]; apply sorted_desc_perm.
Qed.

Lemma hits_raise (self : HezbollahDataIntegrator) (name : cell) (T1 T2 : Z) :
  T1 <= T2 ->
  hits ratio self name T2 =
  filter (fun m => T2 <=? Match.match_score m) (hits ratio self name T1).
Proof.
  intros H. unfold hits. induction (name_index self) as [|[k u] d IH]; [reflexivity|].
  simpl. destruct (T2 <=? ratio (normalize_name name) k) eqn:E2.
  - apply Z.leb_le in E2.
    assert (E1 : (T1 <=? ratio (normalize_name name) k) = true) by (apply Z.leb_le; lia).
    rewrite E1. simpl. apply Z.leb_le in E2. rewrite E2, IH. reflexivity.
  - destruct (T1 <=? ratio (normalize_name name) k); simpl; [rewrite E2|]; exact IH.
Qed.

(** C4.  In an index without repeated keys, a name whose normal form is
    a key of the index is answered with that key's uid; a name whose
    normal form is no key of the index is answered with [None]; and a
    threshold no entry reaches makes [fuzzy_match] return the empty
    list.  Both lookups are total: they return a value on every input,
    never an exception. *)
Theorem exact_match_present_absent
    (self : HezbollahDataIntegrator) (name : cell) :
  NoDup (keys (name_index self)) ->
  (forall uid, In (normalize_name name, uid) (name_index self) ->
               exact_match self name = Some uid) /\
  (~ In (normalize_name name) (keys (name_index self)) ->
   exact_match self name = None) /\
  (forall threshold,
      (forall k u, In (k, u) (name_index self) ->
                   ratio (normalize_name name) k < threshold) ->
      fuzzy_match ratio self name threshold = []).
Proof.
  intros N. split; [|split].
  - intros uid H. apply dict_get_In; assumption.
  - apply dict_get_None.
  - intros threshold H. destruct (fuzzy_match ratio self name threshold) as [|m l] eqn:E;
      [reflexivity|].
    assert (Hm : In m (fuzzy_match ratio self name threshold)) by (rewrite E; left; reflexivity).
    apply fuzzy_match_In, hits_score in Hm as [k [u [H1 [H2 _]]]].
    specialize (H k u H1). lia.
Qed.

(** C5.  [fuzzy_match] returns exactly the entries of the index that
    score at least the threshold against the normalised query, none
    below it, ordered by descending score, entries of equal score in the
    iteration order of the index; and the result at a higher threshold
    is the part of the result at the lower threshold that reaches it,
    hence a subset. *)
Theorem fuzzy_match_threshold_order
    (self : HezbollahDataIntegrator) (name : cell) (T1 T2 : Z) :
  T1 <= T2 ->
  Permutation (fuzzy_match ratio self name T1) (hits ratio self name T1) /\
  (forall m, In m (fuzzy_match ratio self name T1) -> T1 <= Match.match_score m) /\
  score_desc (fuzzy_match ratio self name T1) /\
  (forall v, filter (fun m => Match.match_score m =? v) (fuzzy_match ratio self name T1) =
             filter (fun m => Match.match_score m =? v) (hits ratio self name T1)) /\
  fuzzy_match ratio self name T2 =
    filter (fun m => T2 <=? Match.match_score m) (fuzzy_match ratio self name T1) /\
  incl (fuzzy_match ratio self name T2) (fuzzy_match ratio self name T1).
Proof.
  intros H.
  assert (E : fuzzy_match ratio self name T2 =
              filter (fun m => T2 <=? Match.match_score m) (fuzzy_match ratio self name T1)).
  { rewrite !fuzzy_match_hits, (hits_raise self name T1 T2 H).
    apply sorted_desc_filter. }
  repeat split.
  - rewrite fuzzy_match_hits. apply sorted_desc_perm.
  - intros m Hm. apply fuzzy_match_In, hits_score in Hm as [k [u [_ [H2 ->]]]].
    exact H2.
  - rewrite fuzzy_match_hits. apply sorted_desc_sorted.
  - intros v. rewrite fuzzy_match_hits. apply sorted_desc_ties.
  - exact E.
  - intros m Hm. rewrite E in Hm. apply filter_In in Hm as [Hm _]. exact Hm.
Qed.

End Matching.

(** ** Profiles *)


Lemma filter_uid_nil (es : list Entity.t) (uid : Z) :
  ~ In uid (map Entity.uid es) -> filter (fun e => Entity.uid e =? uid) es = [].
Proof.
  induction es as [|e es IH]; simpl; [reflexivity|].
  intros H. destruct (Entity.uid e =? uid) eqn:E.
  - apply Z.eqb_eq in E. exfalso. apply H. left. exact E.
  - apply IH. intros Hin. apply H. right. exact Hin.
Qed.

Lemma filter_uid_cons (es : list Entity.t) (uid : Z) :
  In uid (map Entity.uid es) ->
  exists e rest, filter (fun e => Entity.uid e =? uid) es = e :: rest /\
                 In e es /\ Entity.uid e = uid.
Proof.
  intros H. apply in_map_iff in H as [e [E Hin]].
  assert (Hf : In e (filter (fun e => Entity.uid e =? uid) es)).
  { apply filter_In. split; [exact Hin|]. apply Z.eqb_eq. exact E. }
  destruct (filter (fun e => Entity.uid e =? uid) es) as [|e0 rest] eqn:F; [contradiction|].
  exists e0, rest. split; [reflexivity|].
  assert (H0 : In e0 (filter (fun e => Entity.uid e =? uid) es)) by (rewrite F; left; reflexivity).
  apply filter_In in H0 as [H1 H2]. apply Z.eqb_eq in H2. split; assumption.
Qed.

Lemma filter_key_In {A : Type} (key : A -> Z) (uid : Z) (l : list A) (x : A) :
  In x (filter (fun a => key a =? uid) l) <-> In x l /\ key x = uid.
Proof. rewrite filter_In, Z.eqb_eq. reflexivity. Qed.

(** C6.  For a uid carried by a row of the Entity table the profile
    exists, is built on a row of that uid, and its alias, address and
    identity-document collections are the rows of the respective tables
    whose [entity_uid] is that uid, all of them and no other, in table
    order; for a uid no Entity row carries the lookup returns [None],
    whatever the related tables hold. *)
Theorem get_entity_profile_join (self : HezbollahDataIntegrator) (uid : Z) :
  (In uid (map Entity.uid (entities self)) ->
   exists p,
     get_entity_profile self (UidInt uid) = Ok (Some p) /\
     Profile.uid p = uid /\
     In (Profile.basic_info p) (entities self) /\
     Entity.uid (Profile.basic_info p) = uid /\
     (forall a, In a (Profile.aliases p) <->
                In a (aliases self) /\ Alias.entity_uid a = uid) /\
     (forall a, In a (Profile.addresses p) <->
                In a (addresses self) /\ Address.entity_uid a = uid) /\
     (forall d, In d (Profile.ids p) <->
                In d (ids self) /\ IdDoc.entity_uid d = uid) /\
     Profile.aliases p = filter (fun a => Alias.entity_uid a =? uid) (aliases self) /\
     Profile.addresses p = filter (fun a => Address.entity_uid a =? uid) (addresses self) /\
     Profile.ids p = filter (fun d => IdDoc.entity_uid d =? uid) (ids self)) /\
  (~ In uid (map Entity.uid (entities self)) ->
   get_entity_profile self (UidInt uid) = Ok None).
Proof.
  split; intros H; unfold get_entity_profile; simpl.
  - destruct (filter_uid_cons _ _ H) as [e [rest [F [Hin Hu]]]]. rewrite F.
    eexists. split; [reflexivity|]. simpl.
    split; [reflexivity|]. split; [exact Hin|]. split; [exact Hu|].
    split; [intros a; apply filter_key_In|].
    split; [intros a; apply filter_key_In|].
    split; [intros d; apply filter_key_In|].
    repeat split.
  - rewrite filter_uid_nil by exact H. reflexivity.
Qed.

(** ** Integer literals *)





(** ** The batch drivers *)

Lemma fold_append {A B : Type} (f : A -> list B) (l : list A) :
  forall acc, fold_left (fun results x => results ++ f x) l acc = acc ++ flat_map f l.
Proof.
  induction l as [|x l IH]; intros acc; simpl.
  - rewrite app_nil_r. reflexivity.
  - rewrite IH, app_assoc. reflexivity.
Qed.

Lemma for_each_Forall2 {A B : Type} (f : A -> outcome B) (l : list A) :
  forall bs, for_each f l = Ok bs -> Forall2 (fun a b => f a = Ok b) l bs.
Proof.
  induction l as [|a l IH]; simpl; intros bs H.
  - inversion H. constructor.
  - destruct (f a) as [b|e] eqn:E; simpl in H; [|discriminate].
    destruct (for_each f l) as [bs'|e] eqn:E'; simpl in H; [|discriminate].
    inversion H; subst. constructor; [exact E|apply IH; reflexivity].
Qed.

Lemma for_each_total {A B : Type} (f : A -> outcome B) (g : A -> B) (l : list A) :
  (forall a, In a l -> f a = Ok (g a)) -> for_each f l = Ok (map g l).
Proof.
  induction l as [|a l IH]; simpl; intros H; [reflexivity|].
  rewrite (H a) by (left; reflexivity). simpl.
  rewrite IH by (intros x Hx; apply H; right; exact Hx). reflexivity.
Qed.

Lemma score_desc_head (m : Match.t) (l : list Match.t) :
  score_desc (m :: l) ->
  forall x, In x (m :: l) -> Match.match_score x <= Match.match_score m.
Proof.
  intros H x [<-|Hx]; [lia|]. inversion H as [|? ? _ Hall]; subst.
  rewrite Forall_forall in Hall. exact (Hall x Hx).
Qed.

Section Batch.

Variable ratio : text -> text -> Z.
Variable re_search : text -> option (text -> bool).

Lemma batch_search_names_flat (self : HezbollahDataIntegrator)
    (names : list cell) (fuzzy : bool) (threshold : Z) :
  batch_search_names ratio self names fuzzy threshold =
  flat_map (batch_step ratio self fuzzy threshold) names.
Proof. unfold batch_search_names. rewrite fold_append. reflexivity. Qed.

Lemma batch_step_name (self : HezbollahDataIntegrator) (fuzzy : bool)
    (threshold : Z) (name : cell) (b : BatchRow.t) :
  In b (batch_step ratio self fuzzy threshold name) -> BatchRow.input_name b = name.
Proof.
  unfold batch_step. destruct (truthy_uid (exact_match self name)).
  - intros [<-|[]]. reflexivity.
  - destruct fuzzy; [|contradiction].
    destruct (fuzzy_match ratio self name threshold); intros [<-|[]]; reflexivity.
Qed.


Lemma name_matching_present (self : HezbollahDataIntegrator) (col : text)
    (r : row) (name : cell) (result : SourceResult.t) :
  col <> [] -> row_get col r = Some name ->
  name_matching ratio self (Some col) r result =
  if truthy_uid (exact_match self name) then
    SourceResult.mk (SourceResult.source_row result) (Some l_exact)
      (exact_match self name) (SourceResult.match_score result) (Some high)
      (SourceResult.location_matches result)
  else
    match fuzzy_match ratio self name 80 with
    | m :: _ =>
        SourceResult.mk (SourceResult.source_row result) (Some l_fuzzy)
          (Some (Match.uid m)) (Some (Match.match_score m))
          (Some (if 85 <? Match.match_score m then medium else low))
          (SourceResult.location_matches result)
    | [] =>
        SourceResult.mk (SourceResult.source_row result) (Some l_none)
          (SourceResult.ofac_uid result) (SourceResult.match_score result)
          (Some new_entity) (SourceResult.location_matches result)
    end.
Proof.
  intros Hc H. unfold name_matching. simpl.
  destruct col as [|c col]; [contradiction|]. simpl. rewrite H. reflexivity.
Qed.

Lemma name_matching_source_row (self : HezbollahDataIntegrator)
    (nc : option text) (r : row) (result : SourceResult.t) :
  SourceResult.source_row (name_matching ratio self nc r result) =
  SourceResult.source_row result /\
  SourceResult.location_matches (name_matching ratio self nc r result) =
  SourceResult.location_matches result.
Proof.
  unfold name_matching.
  destruct (if truthy_arg (option_map Text nc) then _ else None) as [name|];
    [|split; reflexivity].
  destruct (truthy_uid (exact_match self name)); [split; reflexivity|].
  destruct (fuzzy_match ratio self name 80); split; reflexivity.
Qed.


Lemma location_matching_fields (self : HezbollahDataIntegrator)
    (lc : option text) (r : row) (result res : SourceResult.t) :
  location_matching re_search self lc r result = Ok res ->
  SourceResult.source_row res = SourceResult.source_row result /\
  SourceResult.ofac_match res = SourceResult.ofac_match result /\
  SourceResult.ofac_uid res = SourceResult.ofac_uid result /\
  SourceResult.match_score res = SourceResult.match_score result /\
  SourceResult.confidence res = SourceResult.confidence result.
Proof.
  unfold location_matching.
  destruct (if truthy_arg (option_map Text lc) then _ else None) as [location|].
  - destruct (search_by_location re_search self (Some location) None) as [L|e];
      simpl; [|discriminate].
    destruct (0 <? Z.of_nat (length L)); intros H; inversion H; subst; simpl; tauto.
  - intros H; inversion H; subst. tauto.
Qed.

Lemma process_row_source_row (self : HezbollahDataIntegrator)
    (nc lc : option text) (ir : Z * row) (res : SourceResult.t) :
  process_row ratio re_search self nc lc ir = Ok res ->
  SourceResult.source_row res = fst ir.
Proof.
  destruct ir as [idx r]. unfold process_row. intros H.
  apply location_matching_fields in H as [H _]. rewrite H.
  apply name_matching_source_row.
Qed.

Lemma process_row_no_location (self : HezbollahDataIntegrator)
    (nc : option text) (idx : Z) (r : row) :
  process_row ratio re_search self nc None (idx, r) =
  Ok (name_matching ratio self nc r (fresh idx)).
Proof. reflexivity. Qed.


(** C2 (amended).  With fuzzy matching enabled [batch_search_names]
    returns one row per input name, in input order, for every threshold
    and also for empty or missing names; with fuzzy matching disabled
    it returns the rows of the names whose exact lookup gives a truthy
    uid, in input order.  [process_new_source] returns one result per
    input row, in input order, whenever it returns, and it returns
    whenever no location column is asked for. *)
Theorem batch_one_row_per_input (self : HezbollahDataIntegrator) :
  (forall names threshold,
      map BatchRow.input_name (batch_search_names ratio self names true threshold)
      = names) /\
  (forall names threshold,
      map BatchRow.input_name (batch_search_names ratio self names false threshold)
      = filter (fun name => truthy_uid (exact_match self name)) names) /\
  (forall data nc lc rs,
      process_new_source ratio re_search self data nc lc = Ok rs ->
      map SourceResult.source_row rs = map fst (iterrows data)) /\
  (forall data nc,
      exists rs,
        process_new_source ratio re_search self data nc None = Ok rs /\
        map SourceResult.source_row rs = map fst (iterrows data)).
Proof.
  assert (P : forall data nc lc rs,
             process_new_source ratio re_search self data nc lc = Ok rs ->
             map SourceResult.source_row rs = map fst (iterrows data)).
  { intros data nc lc rs H. unfold process_new_source in H.
    apply for_each_Forall2 in H.
    induction H as [|ir res l rs Hr _ IH]; [reflexivity|].
    simpl. rewrite IH, (process_row_source_row _ _ _ _ _ Hr). reflexivity. }
  split; [|split; [|split]].
  - intros names threshold. rewrite batch_search_names_flat.
    induction names as [|name names IH]; [reflexivity|].
    simpl. rewrite map_app, IH. unfold batch_step.
    destruct (truthy_uid (exact_match self name)); [reflexivity|].
    destruct (fuzzy_match ratio self name threshold); reflexivity.
  - intros names threshold. rewrite batch_search_names_flat.
    induction names as [|name names IH]; [reflexivity|].
    simpl. rewrite map_app, IH. unfold batch_step.
    destruct (truthy_uid (exact_match self name)); reflexivity.
  - exact P.
  - intros data nc.
    assert (E : process_new_source ratio re_search self data nc None =
                Ok (map (fun ir => name_matching ratio self nc (snd ir) (fresh (fst ir)))
                        (iterrows data))).
    { apply for_each_total. intros [idx r] _. apply process_row_no_location. }
    eexists. split; [exact E|]. exact (P _ _ _ _ E).
Qed.

(** C3 (amended).  For a row of [process_new_source] whose name column
    is present: when the exact lookup gives a truthy uid the verdict is
    [exact] with confidence [high] and that uid, and no score is
    recorded; otherwise, when an entry reaches the fixed threshold 80,
    the verdict is [fuzzy] with the uid and score of a top-scoring
    entry, confidence [medium] for a score above 85 and [low] for a
    score from 80 to 85; otherwise the verdict is [none] with
    confidence [new_entity]. *)
Theorem process_row_verdict (self : HezbollahDataIntegrator)
    (idx : Z) (r : row) (nc : text) (name : cell) :
  nc <> [] -> row_get nc r = Some name ->
  exists res,
    process_row ratio re_search self (Some nc) None (idx, r) = Ok res /\
    SourceResult.source_row res = idx /\
    (truthy_uid (exact_match self name) = true ->
     SourceResult.ofac_match res = Some l_exact /\
     SourceResult.ofac_uid res = exact_match self name /\
     SourceResult.confidence res = Some high /\
     SourceResult.match_score res = None) /\
    (truthy_uid (exact_match self name) = false ->
     forall m rest, fuzzy_match ratio self name 80 = m :: rest ->
       SourceResult.ofac_match res = Some l_fuzzy /\
       SourceResult.ofac_uid res = Some (Match.uid m) /\
       SourceResult.match_score res = Some (Match.match_score m) /\
       In m (hits ratio self name 80) /\
       (forall x, In x (hits ratio self name 80) ->
                  Match.match_score x <= Match.match_score m) /\
       80 <= Match.match_score m /\
       (85 < Match.match_score m -> SourceResult.confidence res = Some medium) /\
       (Match.match_score m <= 85 -> SourceResult.confidence res = Some low)) /\
    (truthy_uid (exact_match self name) = false ->
     hits ratio self name 80 = [] ->
     SourceResult.ofac_match res = Some l_none /\
     SourceResult.confidence res = Some new_entity /\
     SourceResult.ofac_uid res = None /\
     SourceResult.match_score res = None).
Proof.
  intros Hc Hr. eexists. split; [apply process_row_no_location|].
  rewrite (name_matching_present self nc r name (fresh idx) Hc Hr).
  split; [|split; [|split]].
  - destruct (truthy_uid (exact_match self name)); [reflexivity|].
    destruct (fuzzy_match ratio self name 80); reflexivity.
  - intros ->. simpl. tauto.
  - intros -> m rest E. rewrite E. simpl.
    assert (Hin : forall x, In x (hits ratio self name 80) <-> In x (m :: rest)).
    { intros x. rewrite <- E. symmetry. apply fuzzy_match_In. }
    assert (Hs : score_desc (m :: rest)).
    { rewrite <- E, fuzzy_match_hits. apply sorted_desc_sorted. }
    assert (Hm : In m (hits ratio self name 80)) by (apply Hin; left; reflexivity).
    repeat split; auto.
    + intros x Hx. apply (score_desc_head m rest Hs). apply Hin. exact Hx.
    + apply hits_score in Hm as [k [u [_ [H2 ->]]]]. exact H2.
    + intros H. apply Z.ltb_lt in H. rewrite H. reflexivity.
    + intros H. apply Z.ltb_ge in H. rewrite H. reflexivity.
  - intros -> E. rewrite fuzzy_match_hits, E. simpl. tauto.
Qed.



(** C10.  When the index maps the normal form of a name to uid 0, no
    driver reports an exact match for it: [batch_search_names] gives
    the row of the fuzzy branch (nothing when fuzzy matching is off),
    no row it returns for that name is labelled [exact], and
    [process_new_source] gives the fuzzy or the [none] verdict. *)
Theorem falsy_uid_not_exact (self : HezbollahDataIntegrator) (name : cell) :
  exact_match self name = Some 0 ->
  (forall fuzzy threshold,
      batch_search_names ratio self [name] fuzzy threshold =
      if fuzzy then
        match fuzzy_match ratio self name threshold with
        | m :: _ => [BatchRow.mk name l_fuzzy (Some (Match.uid m))
                       (Some (Match.ofac_name m)) (Match.match_score m)]
        | [] => [BatchRow.mk name l_no_match None None 0]
        end
      else []) /\
  (forall names fuzzy threshold b,
      In b (batch_search_names ratio self names fuzzy threshold) ->
      BatchRow.input_name b = name -> BatchRow.match_type b <> l_exact) /\
  (forall (idx : Z) (r : row) (nc : text),
      nc <> [] -> row_get nc r = Some name ->
      exists res,
        process_new_source ratio re_search self (Frame [(idx, r)]) (Some nc) None
        = Ok [res] /\
        SourceResult.ofac_match res <> Some l_exact /\
        SourceResult.ofac_match res =
          match fuzzy_match ratio self name 80 with
          | _ :: _ => Some l_fuzzy
          | [] => Some l_none
          end /\
        SourceResult.ofac_uid res =
          match fuzzy_match ratio self name 80 with
          | m :: _ => Some (Match.uid m)
          | [] => None
          end).
Proof.
  intros H0.
  assert (S : forall fuzzy threshold,
             batch_step ratio self fuzzy threshold name =
             if fuzzy then
               match fuzzy_match ratio self name threshold with
               | m :: _ => [BatchRow.mk name l_fuzzy (Some (Match.uid m))
                              (Some (Match.ofac_name m)) (Match.match_score m)]
               | [] => [BatchRow.mk name l_no_match None None 0]
               end
             else []).
  { intros fuzzy threshold. unfold batch_step. rewrite H0. reflexivity. }
  split; [|split].
  - intros fuzzy threshold. rewrite batch_search_names_flat. simpl.
    rewrite app_nil_r. apply S.
  - intros names fuzzy threshold b Hb Hn. rewrite batch_search_names_flat in Hb.
    apply in_flat_map in Hb as [n [_ Hb]].
    pose proof (batch_step_name _ _ _ _ _ Hb) as E. rewrite Hn in E. subst n.
    rewrite S in Hb. destruct fuzzy; [|contradiction].
    destruct (fuzzy_match ratio self name threshold);
      destruct Hb as [<-|[]]; discriminate.
  - intros idx r nc Hc Hr. unfold process_new_source, iterrows, for_each.
    rewrite process_row_no_location.
    exists (name_matching ratio self (Some nc) r (fresh idx)).
    split; [reflexivity|].
    rewrite (name_matching_present self nc r name (fresh idx) Hc Hr), H0.
    simpl. destruct (fuzzy_match ratio self name 80); simpl;
      repeat split; discriminate.
Qed.

End Batch.

(** ** The index of the code against the index of the specification *)

(** C1.  The entity ["John" "Smith Jr."]: the code files it under
    ["JOHN SMITH JR."], the construction of the specification under
    ["JOHN SMITH"]; the exact lookup of the entity's own name, which
    normalises the query, misses the code's index and hits the
    specification's. *)
Theorem build_name_index_keeps_title :
  _build_name_index [john_jr] [] = [(lit "JOHN SMITH JR.", 7)] /\
  spec_build_name_index [john_jr] [] = [(lit "JOHN SMITH", 7)] /\
  normalize_name (Text (lit "John Smith Jr.")) = lit "JOHN SMITH" /\
  exact_match (init [john_jr] [] [] []) (Text (lit "John Smith Jr.")) = None /\
  dict_get (normalize_name (Text (lit "John Smith Jr.")))
           (spec_build_name_index [john_jr] []) = Some 7.
Proof. repeat split; reflexivity. Qed.

(** ** Counterexamples *)

(** C2 as stated fails: with fuzzy matching off, an unmatched name gets
    no row. *)
Lemma batch_drops_unmatched :
  ~ (forall (ratio : text -> text -> Z) (self : HezbollahDataIntegrator)
            (names : list cell) (fuzzy : bool) (threshold : Z),
        length (batch_search_names ratio self names fuzzy threshold) = length names).
Proof.
  intros H.
  specialize (H ratio_same sample [Text (lit "John Smith")] false 85).
  discriminate H.
Qed.

(** C3 as stated fails: the row of an exact match carries no score. *)
Lemma exact_row_without_score :
  ~ (forall (ratio : text -> text -> Z) (re_search : text -> option (text -> bool))
            (self : HezbollahDataIntegrator) (idx : Z) (r : row) (nc : text)
            (name : cell) (uid : Z),
        row_get nc r = Some name -> exact_match self name = Some uid ->
        exists res,
          process_row ratio re_search self (Some nc) None (idx, r) = Ok res /\
          SourceResult.ofac_match res = Some l_exact /\
          SourceResult.confidence res = Some high /\
          SourceResult.match_score res = Some 100).
Proof.
  intros H.
  destruct (H ratio_same search_literal sample 0 (name_row "Jane Doe") (lit "Name")
              (Text (lit "Jane Doe")) 7 eq_refl eq_refl) as [res [E [_ [_ S]]]].
  vm_compute in E. inversion E; subst. discriminate S.
Qed.



(** ** The theorems at the sample data *)


Lemma exact_match_present_absent_witness :
  exact_match sample (Text (lit "dr. jane  doe")) = Some 7 /\
  exact_match sample (Text (lit "Nobody")) = None /\
  fuzzy_match ratio_same sample (Text (lit "Nobody")) 85 = [].
Proof.
  assert (N : NoDup (keys (name_index sample))) by apply build_name_index_NoDup.
  split; [|split].
  - apply (exact_match_present_absent ratio_same sample (Text (lit "dr. jane  doe")) N).
    vm_compute. left; reflexivity.
  - apply (exact_match_present_absent ratio_same sample (Text (lit "Nobody")) N).
    vm_compute. intuition discriminate.
  - apply (exact_match_present_absent ratio_same sample (Text (lit "Nobody")) N).
    intros k u H. vm_compute in H.
    repeat (destruct H as [H|H]; [inversion H; subst; reflexivity|]).
    contradiction.
Defined.

Lemma fuzzy_match_threshold_order_witness :
  50 <= 100 /\
  score_desc (fuzzy_match ratio_same sample (Text (lit "Jane Doe")) 50) /\
  incl (fuzzy_match ratio_same sample (Text (lit "Jane Doe")) 100)
       (fuzzy_match ratio_same sample (Text (lit "Jane Doe")) 50).
Proof.
  assert (H : 50 <= 100) by lia.
  destruct (fuzzy_match_threshold_order ratio_same sample (Text (lit "Jane Doe")) 50 100 H)
    as [_ [_ [S [_ [_ I]]]]].
  split; [exact H|]. split; [exact S|exact I].
Defined.

Lemma get_entity_profile_join_witness :
  (exists p, get_entity_profile sample (UidInt 7) = Ok (Some p) /\
             Profile.aliases p = [jane_aka]) /\
  get_entity_profile sample (UidInt 5) = Ok None.
Proof.
  split.
  - destruct (get_entity_profile_join sample 7) as [H _].
    destruct H as [p [E [_ [_ [_ [_ [_ [_ [A _]]]]]]]]].
    + simpl. left; reflexivity.
    + exists p. split; [exact E|exact A].
  - apply (get_entity_profile_join sample 5). simpl. intuition discriminate.
Defined.

Lemma batch_one_row_per_input_witness :
  map BatchRow.input_name
      (batch_search_names ratio_same sample [Text (lit "Jane Doe"); NA; Text []] true 85)
  = [Text (lit "Jane Doe"); NA; Text []] /\
  (forall rs,
      process_new_source ratio_same search_literal sample
        (Frame [(0, name_row "Jane Doe"); (1, name_row "Nobody")]) (Some (lit "Name")) None
      = Ok rs -> map SourceResult.source_row rs = [0; 1]).
Proof.
  destruct (batch_one_row_per_input ratio_same search_literal sample) as [H1 [_ [H3 _]]].
  split; [apply H1|]. intros rs E. exact (H3 _ _ _ _ E).
Defined.

Lemma process_row_verdict_witness :
  exists res,
    process_row ratio_same search_literal sample (Some (lit "Name")) None
      (0, name_row "Jane Doe") = Ok res /\
    SourceResult.ofac_match res = Some l_exact /\
    SourceResult.confidence res = Some high.
Proof.
  assert (Hc : lit "Name" <> []) by discriminate.
  assert (Hr : row_get (lit "Name") (name_row "Jane Doe") = Some (Text (lit "Jane Doe")))
    by reflexivity.
  destruct (process_row_verdict ratio_same search_literal sample 0 _ _ _ Hc Hr)
    as [res [E [_ [X _]]]].
  exists res. split; [exact E|].
  destruct (X eq_refl) as [A [_ [B _]]]. split; assumption.
Defined.



Lemma falsy_uid_not_exact_witness :
  exact_match zero_uid (Text (lit "Jane Doe")) = Some 0 /\
  batch_search_names ratio_same zero_uid [Text (lit "Jane Doe")] false 85 = [].
Proof.
  assert (H : exact_match zero_uid (Text (lit "Jane Doe")) = Some 0) by reflexivity.
  split; [exact H|].
  destruct (falsy_uid_not_exact ratio_same search_literal zero_uid (Text (lit "Jane Doe")) H)
    as [B _].
  exact (B false 85).
Defined.

(* ================================================================= *)
(** * Further properties of the toolkit *)

(** ** The shape of a normal form *)


Lemma isspace_upper (c : ascii) : isspace (upper_char c) = isspace c.
Proof. ascii_cases c; reflexivity. Qed.




Lemma ends_word_cons (c : ascii) (a : text) :
  ends_word (c :: a) = match a with [] => isword c | _ => ends_word a end.
Proof.
  unfold ends_word. rewrite last_of_cons. destruct a as [|d a]; [reflexivity|].
  unfold last_of. destruct (rev (d :: a)) eqn:R; [|reflexivity].
  apply (f_equal (@length ascii)) in R. rewrite length_rev in R. discriminate.
Qed.

Lemma title_free_app (a s : text) :
  forall pw, title_free pw (a ++ s) ->
             title_free (match a with [] => pw | _ => ends_word a end) s.
Proof.
  induction a as [|c a IH]; intros pw H; [exact H|].
  destruct H as [_ H]. apply IH in H. rewrite ends_word_cons.
  destruct a; exact H.
Qed.

(** X2.  No honorific is left in a normal form as a whole word: wherever
    one of the seven tokens occurs, a word character stands right before
    it or right after it. *)
Theorem normalize_name_no_title (x : cell) (a t b : text) :
  normalize_name x = a ++ t ++ b -> In t titles ->
  ends_word a = true \/ head_word b = true.
Proof.
  intros E Hin. pose proof (normalize_name_title_free x) as F.
  rewrite E in F. apply title_free_app in F.
  assert (Q : title_free (ends_word a) (t ++ b)) by (destruct a; exact F).
  destruct (titles_words t Hin) as [Hne Hw].
  destruct t as [|c t]; [contradiction|]. destruct Q as [[Q|Q] _]; [left; exact Q|].
  destruct (head_word b) eqn:Hb; [right; reflexivity|].
  exfalso. apply Q. change (c :: t ++ b) with ((c :: t) ++ b).
  rewrite lead_word_app, (lead_word_head b Hb), app_nil_r by exact Hw. exact Hin.
Qed.

(** ** Blanks around a name *)

Lemma lstrip_split (s : text) : exists w, s = w ++ lstrip s /\ blank w.
Proof.
  induction s as [|c s [w [E B]]]; [exists []; split; [reflexivity|constructor]|].
  simpl. destruct (isspace c) eqn:Ec.
  - exists (c :: w). split; [simpl; congruence|constructor; assumption].
  - exists []. split; [reflexivity|constructor].
Qed.

Lemma rstrip_split (s : text) : exists w, s = rstrip s ++ w /\ blank w.
Proof.
  destruct (lstrip_split (rev s)) as [w [E B]]. exists (rev w). split.
  - unfold rstrip. rewrite <- rev_app_distr, <- E, rev_involutive. reflexivity.
  - apply Forall_rev. exact B.
Qed.

Lemma strip_split (s : text) :
  exists w1 w2, s = w1 ++ strip s ++ w2 /\ blank w1 /\ blank w2.
Proof.
  destruct (lstrip_split s) as [w1 [E1 B1]].
  destruct (rstrip_split (lstrip s)) as [w2 [E2 B2]].
  exists w1, w2. unfold strip. rewrite <- E2. auto.
Qed.

Lemma upper_lstrip (s : text) : upper (lstrip s) = lstrip (upper s).
Proof.
  induction s as [|c s IH]; [reflexivity|]. simpl.
  rewrite isspace_upper. destruct (isspace c); [exact IH|reflexivity].
Qed.

Lemma upper_strip (s : text) : upper (strip s) = strip (upper s).
Proof.
  unfold strip, rstrip, upper. rewrite map_rev. fold (upper (lstrip (rev (lstrip s)))).
  rewrite upper_lstrip. unfold upper. rewrite map_rev.
  fold (upper (lstrip s)). rewrite upper_lstrip. reflexivity.
Qed.

Lemma blank_head (w : text) : blank w -> head_word w = false /\ dot_len w = 0%nat.
Proof.
  destruct 1 as [|c w Hc _]; [split; reflexivity|]. simpl.
  split; [apply isspace_not_word; exact Hc|].
  destruct (ascii_eqb c dot) eqn:E; [|reflexivity].
  apply ascii_eqb_true in E. subst c. discriminate Hc.
Qed.

Lemma lead_word_blank (s w : text) : blank w -> lead_word (s ++ w) = lead_word s.
Proof.
  intros B. induction s as [|c s IH]; simpl.
  - apply lead_word_head, blank_head, B.
  - rewrite IH. reflexivity.
Qed.

Lemma match_title_lead (p : option ascii) (s : text) (n : nat) :
  match_title p s = Some n ->
  exists r, s = lead_word s ++ r /\ n = (length (lead_word s) + dot_len r)%nat.
Proof.
  intros M. apply match_title_Some in M as [_ [w [r [E [_ [L [_ N]]]]]]].
  exists r. rewrite L. auto.
Qed.

Lemma match_title_agree (p q : option ascii) (s s' : text) :
  word_opt p = word_opt q -> lead_word s = lead_word s' ->
  (forall r r', s = lead_word s ++ r -> s' = lead_word s' ++ r' -> dot_len r = dot_len r') ->
  match_title p s = match_title q s'.
Proof.
  intros Hp Hl Hd.
  destruct (match_title p s) as [n|] eqn:M, (match_title q s') as [m|] eqn:M'; try reflexivity.
  - destruct (match_title_lead _ _ _ M) as [r [E N]].
    destruct (match_title_lead _ _ _ M') as [r' [E' N']].
    rewrite N, N', (Hd r r' E E'), Hl. reflexivity.
  - exfalso. pose proof (match_title_Some _ _ _ M) as [H1 [w [r [_ [H2 [H3 _]]]]]].
    destruct (match_title_None _ _ M') as [H|H]; [congruence|].
    apply H. rewrite <- Hl, H3. exact H2.
  - exfalso. pose proof (match_title_Some _ _ _ M') as [H1 [w [r [_ [H2 [H3 _]]]]]].
    destruct (match_title_None _ _ M) as [H|H]; [congruence|].
    apply H. rewrite Hl, H3. exact H2.
Qed.

Lemma match_title_prev (p q : option ascii) (s : text) :
  word_opt p = word_opt q -> match_title p s = match_title q s.
Proof.
  intros H. apply match_title_agree; [exact H|reflexivity|].
  intros r r' E E'. rewrite E in E' at 1. apply app_inv_head in E'. congruence.
Qed.

Lemma sub_from_prev (s : text) :
  forall p q k, word_opt p = word_opt q -> sub_from p k s = sub_from q k s.
Proof.
  induction s as [|c s IH]; intros p q k H; [reflexivity|]. simpl.
  destruct k; [|reflexivity]. rewrite (match_title_prev p q _ H). reflexivity.
Qed.

Lemma match_title_blank (p : option ascii) (s w : text) :
  blank w -> match_title p (s ++ w) = match_title p s.
Proof.
  intros B. apply match_title_agree; [reflexivity|apply lead_word_blank; exact B|].
  intros r r' E E'. rewrite lead_word_blank in E by exact B.
  rewrite E' in E at 1. rewrite <- app_assoc in E. apply app_inv_head in E. subst r.
  destruct r'; [apply blank_head; exact B|reflexivity].
Qed.

Lemma sub_from_lead_blank (w s : text) :
  blank w -> forall p, sub_from p 0 (w ++ s) = w ++ sub_from (last_of p w) 0 s.
Proof.
  induction 1 as [|c w Hc _ IH]; intros p; [reflexivity|].
  simpl app. rewrite sub_from_keep.
  - rewrite IH, last_of_cons. reflexivity.
  - apply match_title_other. simpl. rewrite (isspace_not_word c Hc). apply nil_not_title.
Qed.

Lemma match_title_length (p : option ascii) (s : text) (n : nat) :
  match_title p s = Some n -> (n <= length s)%nat.
Proof.
  intros M. destruct (match_title_lead _ _ _ M) as [r [E N]].
  apply (f_equal (@length ascii)) in E. rewrite length_app in E.
  assert (dot_len r <= length r)%nat; [|lia].
  destruct r as [|c r]; simpl; [lia|]. destruct (ascii_eqb c dot); lia.
Qed.

Lemma sub_from_trail_blank (w : text) :
  blank w ->
  forall s p k, (k <= length s)%nat -> sub_from p k (s ++ w) = sub_from p k s ++ w.
Proof.
  intros B. induction s as [|c s IH]; intros p k Hk.
  - assert (k = 0%nat) by (simpl in Hk; lia). subst k.
    pose proof (sub_from_lead_blank w [] B p) as H.
    simpl in H. rewrite !app_nil_r in H. exact H.
  - simpl in Hk. destruct k as [|k]; [|simpl; apply IH; lia].
    destruct (match_title p (c :: s)) as [n|] eqn:M.
    + pose proof (match_title_length _ _ _ M) as Hn. simpl in Hn.
      change ((c :: s) ++ w) with (c :: s ++ w). simpl.
      change (c :: s ++ w) with ((c :: s) ++ w).
      rewrite (match_title_blank p (c :: s) w B), M.
      destruct n as [|n]; [rewrite IH by lia; reflexivity|apply IH; lia].
    + rewrite (sub_from_keep _ _ _ M).
      change ((c :: s) ++ w) with (c :: s ++ w). rewrite sub_from_keep.
      * rewrite IH by lia. reflexivity.
      * change (c :: s ++ w) with ((c :: s) ++ w).
        rewrite (match_title_blank p (c :: s) w B). exact M.
Qed.

Lemma collapse_lead_blank (w s : text) : blank w -> collapse (w ++ s) = collapse s.
Proof.
  induction 1 as [|c w Hc _ IH]; [reflexivity|].
  simpl app. rewrite collapse_blank by exact Hc. exact IH.
Qed.

Lemma collapse_trail_blank (w s : text) : blank w -> collapse (s ++ w) = collapse s.
Proof.
  intros B. induction s as [|c s IH].
  - simpl. rewrite <- (app_nil_r w). apply collapse_lead_blank. exact B.
  - simpl app. destruct (isspace c) eqn:E.
    + rewrite !collapse_blank by exact E. exact IH.
    + rewrite !collapse_cons by exact E. rewrite IH. f_equal. f_equal.
      unfold gap. rewrite IH. destruct s as [|d s]; [|reflexivity].
      simpl. destruct (head_space w); reflexivity.
Qed.

Lemma blank_last (w : text) (p : option ascii) :
  blank w -> word_opt p = false -> word_opt (last_of p w) = false.
Proof.
  intros B Hp. unfold last_of. destruct (rev w) as [|c l] eqn:R; [exact Hp|].
  simpl. apply isspace_not_word.
  unfold blank in B. rewrite Forall_forall in B. apply B, in_rev.
  rewrite R. left; reflexivity.
Qed.

Lemma normalize_text_strip (s : text) :
  normalize_name (Text (strip s)) = normalize_name (Text s).
Proof.
  rewrite !normalize_name_text, upper_strip.
  destruct (strip_split (upper s)) as [w1 [w2 [E [B1 B2]]]].
  rewrite E at 2. unfold sub_titles.
  rewrite sub_from_lead_blank by exact B1.
  rewrite (sub_from_prev _ (last_of None w1) None 0%nat)
    by (rewrite blank_last by (exact B1 || reflexivity); reflexivity).
  rewrite sub_from_trail_blank by (exact B2 || lia).
  rewrite collapse_lead_blank by exact B1.
  rewrite collapse_trail_blank by exact B2. reflexivity.
Qed.

(** X3.  Blanks before and after a name do not change its normal form;
    a missing name and a name of blanks alone both normalise to the
    empty string. *)
Theorem normalize_name_ignores_padding :
  (forall s, normalize_name (Text (strip s)) = normalize_name (Text s)) /\
  (forall w1 w2 s, blank w1 -> blank w2 ->
                   normalize_name (Text (w1 ++ s ++ w2)) = normalize_name (Text s)) /\
  (forall w, blank w -> normalize_name (Text w) = normalize_name NA).
Proof.
  assert (P : forall w1 w2 s, blank w1 -> blank w2 ->
                normalize_name (Text (w1 ++ s ++ w2)) = normalize_name (Text s)).
  { intros w1 w2 s B1 B2. rewrite !normalize_name_text. unfold sub_titles, upper.
    rewrite !map_app.
    assert (U : forall w, blank w -> blank (map upper_char w)).
    { intros w B. unfold blank in *. rewrite Forall_map.
      eapply Forall_impl; [|exact B]. intros c Hc. simpl.
      rewrite isspace_upper. exact Hc. }
    rewrite sub_from_lead_blank by (apply U; exact B1).
    rewrite (sub_from_prev _ (last_of None (map upper_char w1)) None 0%nat)
      by (rewrite blank_last by (apply U; exact B1) || reflexivity; reflexivity).
    rewrite sub_from_trail_blank by (apply U; exact B2) || lia.
    rewrite collapse_lead_blank by (apply U; exact B1).
    rewrite collapse_trail_blank by (apply U; exact B2). reflexivity. }
  split; [exact normalize_text_strip|]. split; [exact P|].
  intros w B. rewrite <- (app_nil_r w). change (w ++ []) with (w ++ [] ++ []).
  rewrite (P w [] [] B) by constructor. reflexivity.
Qed.

(** ** The index as a sequence of assignments *)

Lemma fold_left_map_set {A : Type} (key : A -> text) (val : A -> Z) (l : list A) :
  forall d, fold_left (fun names x => dict_set (key x) (val x) names) l d =
            fold_left assign (map (fun x => (key x, val x)) l) d.
Proof. induction l as [|x l IH]; intros d; simpl; [reflexivity|apply IH]. Qed.

Lemma build_as_fold (es : list Entity.t) (als : list Alias.t) :
  _build_name_index es als = fold_left assign (assignments es als) [].
Proof.
  unfold _build_name_index, assignments. rewrite fold_left_app.
  rewrite <- (fold_left_map_set
                (fun e => full_name (Entity.first_name e) (Entity.last_name e)) Entity.uid).
  rewrite <- (fold_left_map_set
                (fun a => full_name (Alias.first_name a) (Alias.last_name a)) Alias.entity_uid).
  reflexivity.
Qed.

Lemma fold_assign_other (k : text) (items : list (text * Z)) :
  ~ In k (map fst items) ->
  forall d, dict_get k (fold_left assign items d) = dict_get k d.
Proof.
  induction items as [|[k' v] items IH]; intros H d; [reflexivity|].
  simpl. rewrite IH by (intros Hin; apply H; right; exact Hin).
  unfold assign. simpl. rewrite dict_get_set.
  destruct (text_eqb k' k) eqn:E; [|reflexivity].
  apply text_eqb_true in E. exfalso. apply H. left. exact E.
Qed.

Lemma fold_assign_last (pre post : list (text * Z)) (k : text) (u : Z) :
  ~ In k (map fst post) ->
  forall d, dict_get k (fold_left assign (pre ++ (k, u) :: post) d) = Some u.
Proof.
  intros H d. rewrite fold_left_app. simpl.
  rewrite fold_assign_other by exact H.
  unfold assign at 1. simpl. rewrite dict_get_set, text_eqb_refl. reflexivity.
Qed.

Lemma dict_get_keys (k : text) (d : dict) :
  In k (keys d) <-> dict_get k d <> None.
Proof.
  split.
  - intros H G. induction d as [|[k' v] d IH]; [contradiction|].
    simpl in *. destruct (text_eqb k' k) eqn:E; [discriminate|].
    destruct H as [H|H]; [subst k'; rewrite text_eqb_refl in E; discriminate|].
    exact (IH H G).
  - intros H. destruct (in_dec (list_eq_dec ascii_dec) k (keys d)) as [Hin|Hn];
      [exact Hin|]. exfalso. apply H, dict_get_None, Hn.
Qed.

Lemma fold_assign_keys (items : list (text * Z)) :
  forall d k, In k (keys (fold_left assign items d)) <->
              In k (keys d) \/ In k (map fst items).
Proof.
  induction items as [|[k' v] items IH]; intros d k; simpl.
  - tauto.
  - rewrite IH. unfold assign at 1. simpl. rewrite dict_set_keys.
    destruct (dict_get k' d) eqn:G.
    + assert (In k' (keys d)) by (apply dict_get_keys; congruence).
      split; [tauto|]. intros [H1|[H1|H1]]; subst; tauto.
    + rewrite in_app_iff. simpl. tauto.
Qed.

Lemma dict_set_entries (k : text) (v : Z) (d : dict) (k0 : text) (u : Z) :
  In (k0, u) (dict_set k v d) -> In (k0, u) d \/ u = v.
Proof.
  induction d as [|[k' v'] d IH]; simpl.
  - intros [H|[]]. inversion H. right; reflexivity.
  - destruct (text_eqb k' k).
    + intros [H|H]; [inversion H; right; reflexivity|left; right; exact H].
    + intros [H|H]; [left; left; exact H|].
      destruct (IH H) as [H'|H']; [left; right; exact H'|right; exact H'].
Qed.

Lemma fold_assign_values (items : list (text * Z)) :
  forall d k u, In (k, u) (fold_left assign items d) ->
                In u (map snd d) \/ In u (map snd items).
Proof.
  induction items as [|[k' v] items IH]; intros d k u H; simpl in *.
  - left. change u with (snd (k, u)). apply in_map. exact H.
  - destruct (IH _ _ _ H) as [H1|H1]; [|right; right; exact H1].
    apply in_map_iff in H1 as [[k0 u0] [E H1]]. simpl in E. subst u0.
    unfold assign in H1. simpl in H1.
    destruct (dict_set_entries _ _ _ _ _ H1) as [H2|H2].
    + left. change u with (snd (k0, u)). apply in_map. exact H2.
    + right. left. symmetry. exact H2.
Qed.

(** X4.  The index holds a key for exactly the names of the entity and
    alias rows, each once; the uid under a key is the one of the last row
    filed under it, entities before aliases; and no uid appears in the
    index that is not the uid of an entity row or the entity_uid of an
    alias row. *)
Theorem name_index_last_row_wins (es : list Entity.t) (als : list Alias.t) :
  NoDup (keys (_build_name_index es als)) /\
  (forall k, In k (keys (_build_name_index es als)) <->
             In k (map fst (assignments es als))) /\
  (forall pre k u post,
      assignments es als = pre ++ (k, u) :: post -> ~ In k (map fst post) ->
      dict_get k (_build_name_index es als) = Some u) /\
  (forall k u, In (k, u) (_build_name_index es als) ->
               In u (map Entity.uid es) \/ In u (map Alias.entity_uid als)).
Proof.
  split; [apply build_name_index_NoDup|]. rewrite build_as_fold. split; [|split].
  - intros k. rewrite fold_assign_keys. simpl. tauto.
  - intros pre k u post E H. rewrite E. apply fold_assign_last. exact H.
  - intros k u H. apply fold_assign_values in H as [[]|H].
    unfold assignments in H. rewrite map_app, !map_map in H. simpl in H.
    apply in_app_iff in H. exact H.
Qed.

(** X5.  A row whose key is its own normal form is found by its name: when
    the key of a row is unchanged by [normalize_name] and no later row is
    filed under the same key, the exact lookup of the row's composed name
    returns the row's uid. *)
Theorem exact_match_own_name
    (es : list Entity.t) (als : list Alias.t) (ads : list Address.t)
    (ds : list IdDoc.t) (pre post : list (text * Z)) (first last : cell) (uid : Z) :
  assignments es als = pre ++ (full_name first last, uid) :: post ->
  ~ In (full_name first last) (map fst post) ->
  normalize_name (Text (full_name first last)) = full_name first last ->
  exact_match (init es als ads ds) (Text (composed first last)) = Some uid.
Proof.
  intros E H N. unfold exact_match. simpl name_index.
  assert (K : normalize_name (Text (composed first last)) = full_name first last).
  { rewrite <- normalize_text_strip, <- N at 1.
    rewrite !normalize_name_text. unfold full_name. fold (composed first last).
    rewrite upper_idem. reflexivity. }
  rewrite K, build_as_fold, E. apply fold_assign_last. exact H.
Qed.

(** ** Exact and fuzzy answers *)

Lemma insert_desc_map (g : Match.t -> Match.t) (m : Match.t) (l : list Match.t) :
  (forall x, Match.match_score (g x) = Match.match_score x) ->
  insert_desc (g m) (map g l) = map g (insert_desc m l).
Proof.
  intros H. induction l as [|x l IH]; [reflexivity|]. simpl.
  rewrite !H. destruct (Match.match_score m <? Match.match_score x); simpl;
    [rewrite IH|]; reflexivity.
Qed.

Lemma sorted_desc_map (g : Match.t -> Match.t) (l : list Match.t) :
  (forall x, Match.match_score (g x) = Match.match_score x) ->
  sorted_desc (map g l) = map g (sorted_desc l).
Proof.
  intros H. induction l as [|m l IH]; [reflexivity|]. simpl.
  rewrite IH. apply insert_desc_map. exact H.
Qed.

Section Answers.

Variable ratio : text -> text -> Z.

(** X6.  A query the index answers exactly is also among the fuzzy
    answers as soon as the similarity of its normal form with itself
    reaches the threshold; when no key scores higher than that, the first
    fuzzy answer carries this score. *)
Theorem exact_hit_in_fuzzy (self : HezbollahDataIntegrator) (name : cell)
    (uid threshold : Z) :
  exact_match self name = Some uid ->
  threshold <= ratio (normalize_name name) (normalize_name name) ->
  In (Match.mk uid (normalize_name name) name
        (ratio (normalize_name name) (normalize_name name)))
     (fuzzy_match ratio self name threshold) /\
  ((forall k u, In (k, u) (name_index self) ->
                ratio (normalize_name name) k
                <= ratio (normalize_name name) (normalize_name name)) ->
   exists m rest,
     fuzzy_match ratio self name threshold = m :: rest /\
     Match.match_score m = ratio (normalize_name name) (normalize_name name)).
Proof.
  intros E T.
  assert (Hin : In (Match.mk uid (normalize_name name) name
                      (ratio (normalize_name name) (normalize_name name)))
                   (fuzzy_match ratio self name threshold)).
  { apply fuzzy_match_In, hits_score. exists (normalize_name name), uid.
    split; [apply dict_get_Some; exact E|]. split; [exact T|reflexivity]. }
  split; [exact Hin|]. intros B.
  destruct (fuzzy_match ratio self name threshold) as [|m rest] eqn:F; [contradiction|].
  exists m, rest. split; [reflexivity|].
  assert (S : score_desc (m :: rest)).
  { rewrite <- F, fuzzy_match_hits. apply sorted_desc_sorted. }
  pose proof (score_desc_head m rest S _ Hin) as H1. simpl in H1.
  assert (Hm : In m (fuzzy_match ratio self name threshold)) by (rewrite F; left; reflexivity).
  apply fuzzy_match_In, hits_score in Hm as [k [u [Hk [_ ->]]]]. simpl in *.
  specialize (B k u Hk). lia.
Qed.

(** X7.  Matching sees a query through its normal form only: two
    spellings with the same normal form get the same exact answer and the
    same fuzzy answers, entry for entry, apart from the spelling echoed in
    [input_name]. *)
Theorem matching_by_normal_form (self : HezbollahDataIntegrator)
    (a b : cell) (threshold : Z) :
  normalize_name a = normalize_name b ->
  exact_match self a = exact_match self b /\
  fuzzy_match ratio self b threshold =
  map (with_input b) (fuzzy_match ratio self a threshold).
Proof.
  intros H. split; [unfold exact_match; rewrite H; reflexivity|].
  rewrite !fuzzy_match_hits, <- sorted_desc_map by reflexivity. f_equal.
  unfold hits. rewrite H, map_map. reflexivity.
Qed.

End Answers.

(** ** Searches by location and by identity document *)

Lemma filter_twice {A : Type} (f g : A -> bool) (l : list A) :
  filter g (filter f l) = filter (fun x => f x && g x) l.
Proof.
  induction l as [|x l IH]; [reflexivity|]. simpl.
  destruct (f x); simpl; [destruct (g x)|]; rewrite IH; reflexivity.
Qed.

Section SearchFacts.

Variable re_search : text -> option (text -> bool).

Lemma narrowed {A : Type} (table : list A) (cond : bool)
    (step : outcome (A -> bool)) (found : list A) :
  (results <- (if cond then test <- step ;; Ok (filter test table) else Ok table) ;;
   Ok results) = Ok found ->
  exists f, found = filter f table.
Proof.
  destruct cond; simpl.
  - destruct step as [test|e]; simpl; [|discriminate].
    intros H. inversion H. exists test. reflexivity.
  - intros H. inversion H. exists (fun _ => true).
    clear. induction found as [|x l IH]; simpl; congruence.
Qed.

Lemma narrowed_twice {A : Type} (table : list A) (c1 c2 : bool)
    (s1 s2 : outcome (A -> bool)) (found : list A) :
  (results <- (if c1 then test <- s1 ;; Ok (filter test table) else Ok table) ;;
   results <- (if c2 then test <- s2 ;; Ok (filter test results) else Ok results) ;;
   Ok results) = Ok found ->
  exists f, found = filter f table.
Proof.
  intros H.
  destruct (if c1 then test <- s1 ;; Ok (filter test table) else Ok table)
    as [mid|e] eqn:E1; simpl in H; [|discriminate].
  assert (H1 : exists f, mid = filter f table).
  { apply (narrowed table c1 s1). rewrite E1. reflexivity. }
  destruct H1 as [f1 ->].
  destruct (narrowed _ c2 s2 found H) as [f2 ->].
  exists (fun x => f1 x && f2 x). apply filter_twice.
Qed.

(** X8.  A search without criteria, or with empty ones, returns the whole
    table; a search that returns at all returns rows of the table, in
    table order, selected by a test on the single row. *)
Theorem searches_select_rows (self : HezbollahDataIntegrator) :
  search_by_location re_search self None None = Ok (addresses self) /\
  search_by_location re_search self (Some (Text [])) (Some (Text []))
  = Ok (addresses self) /\
  search_by_id re_search self None None = Ok (ids self) /\
  search_by_id re_search self (Some (Text [])) (Some (Text [])) = Ok (ids self) /\
  (forall country city found,
      search_by_location re_search self country city = Ok found ->
      exists f, found = filter f (addresses self)) /\
  (forall id_number id_type found,
      search_by_id re_search self id_number id_type = Ok found ->
      exists f, found = filter f (ids self)).
Proof.
  repeat split; try reflexivity.
  - intros country city found H. unfold search_by_location in H.
    eapply narrowed_twice with
      (s1 := test <- str_contains re_search
                       (match country with Some c => c | None => NA end) ;;
             Ok (fun a => test (Address.country a)))
      (s2 := test <- str_contains re_search
                       (match city with Some c => c | None => NA end) ;;
             Ok (fun a => test (Address.city a)))
      (c1 := truthy_arg country) (c2 := truthy_arg city).
    rewrite <- H. clear H.
    destruct (truthy_arg country), (truthy_arg city); simpl;
      repeat (match goal with
              | |- context [str_contains re_search ?x] =>
                  destruct (str_contains re_search x); simpl
              | |- context [re_search ?x] =>
                  destruct (re_search x); simpl
              end); reflexivity.
  - intros n t found H. unfold search_by_id in H.
    eapply narrowed_twice with
      (s1 := test <- str_contains re_search
                       (Text (fmt (match n with Some c => c | None => NA end))) ;;
             Ok (fun d => test (IdDoc.id_number d)))
      (s2 := test <- str_contains re_search
                       (match t with Some c => c | None => NA end) ;;
             Ok (fun d => test (IdDoc.id_type d)))
      (c1 := truthy_arg n) (c2 := truthy_arg t).
    rewrite <- H. clear H.
    destruct (truthy_arg n), (truthy_arg t); simpl;
      repeat (match goal with
              | |- context [str_contains re_search ?x] =>
                  destruct (str_contains re_search x); simpl
              | |- context [re_search ?x] =>
                  destruct (re_search x); simpl
              end); reflexivity.
Qed.




End SearchFacts.

(** ** Uids given as strings *)







(** X13.  When several Entity rows carry the same uid, the profile is
    built on the first of them. *)
Theorem profile_first_entity_row (self : HezbollahDataIntegrator)
    (pre post : list Entity.t) (e : Entity.t) :
  entities self = pre ++ e :: post ->
  ~ In (Entity.uid e) (map Entity.uid pre) ->
  exists p,
    get_entity_profile self (UidInt (Entity.uid e)) = Ok (Some p) /\
    Profile.basic_info p = e.
Proof.
  intros E H. unfold get_entity_profile. simpl. rewrite E, filter_app.
  rewrite (filter_uid_nil pre _ H). simpl. rewrite Z.eqb_refl.
  eexists. split; reflexivity.
Qed.

(** X14.  Profiles of different uids share no row: an alias, address or
    identity document in the profile of one uid is in the profile of no
    other. *)
Theorem profiles_disjoint (self : HezbollahDataIntegrator)
    (u1 u2 : uid_arg) (p1 p2 : Profile.t) :
  get_entity_profile self u1 = Ok (Some p1) ->
  get_entity_profile self u2 = Ok (Some p2) ->
  Profile.uid p1 <> Profile.uid p2 ->
  (forall a, In a (Profile.aliases p1) -> ~ In a (Profile.aliases p2)) /\
  (forall a, In a (Profile.addresses p1) -> ~ In a (Profile.addresses p2)) /\
  (forall d, In d (Profile.ids p1) -> ~ In d (Profile.ids p2)).
Proof.
  assert (G : forall u p,
             get_entity_profile self u = Ok (Some p) ->
             Profile.aliases p = filter (fun a => Alias.entity_uid a =? Profile.uid p) (aliases self) /\
             Profile.addresses p = filter (fun a => Address.entity_uid a =? Profile.uid p) (addresses self) /\
             Profile.ids p = filter (fun d => IdDoc.entity_uid d =? Profile.uid p) (ids self)).
  { intros u p H. unfold get_entity_profile in H.
    destruct (match u with UidInt n => Ok n | UidStr s => int_of_str s end) as [n|e];
      simpl in H; [|discriminate].
    destruct (filter (fun e => Entity.uid e =? n) (entities self)); [discriminate|].
    inversion H; subst. simpl. auto. }
  intros H1 H2 Hne. destruct (G _ _ H1) as [A1 [B1 C1]]. destruct (G _ _ H2) as [A2 [B2 C2]].
  rewrite A1, A2, B1, B2, C1, C2.
  repeat split; intros x Hx Hy; apply filter_key_In in Hx as [_ Hx];
    apply filter_key_In in Hy as [_ Hy]; congruence.
Qed.

(** ** More on the batch drivers *)

Lemma for_each_app {A B : Type} (f : A -> outcome B) (l1 l2 : list A) :
  for_each f (l1 ++ l2) =
  (a <- for_each f l1 ;; b <- for_each f l2 ;; Ok (a ++ b)).
Proof.
  induction l1 as [|x l1 IH]; simpl.
  - destruct (for_each f l2); reflexivity.
  - destruct (f x) as [y|e]; simpl; [|reflexivity]. rewrite IH.
    destruct (for_each f l1) as [a|e]; simpl; [|reflexivity].
    destruct (for_each f l2); reflexivity.
Qed.

Lemma for_each_raise {A B : Type} (f : A -> outcome B) (l : list A) (x : A) (e0 : exn) :
  In x l -> f x = Raise e0 -> exists e, for_each f l = Raise e.
Proof.
  induction l as [|a l IH]; simpl; [contradiction|].
  intros [->|H] E.
  - rewrite E. exists e0. reflexivity.
  - destruct (f a) as [b|e]; simpl; [|exists e; reflexivity].
    destruct (IH H E) as [e' ->]. exists e'. reflexivity.
Qed.

Section BatchFacts.

Variable ratio : text -> text -> Z.
Variable re_search : text -> option (text -> bool).

(** X15.  Rows are resolved independently: the result for a list of
    names, or a frame of rows, is the result for its first part followed
    by the result for the rest; for [process_new_source] an exception in
    the first part is the exception of the whole. *)
Theorem batch_concatenation (self : HezbollahDataIntegrator) :
  (forall l1 l2 fuzzy threshold,
      batch_search_names ratio self (l1 ++ l2) fuzzy threshold =
      batch_search_names ratio self l1 fuzzy threshold ++
      batch_search_names ratio self l2 fuzzy threshold) /\
  (forall r1 r2 nc lc,
      process_new_source ratio re_search self (Frame (r1 ++ r2)) nc lc =
      (a <- process_new_source ratio re_search self (Frame r1) nc lc ;;
       b <- process_new_source ratio re_search self (Frame r2) nc lc ;;
       Ok (a ++ b))).
Proof.
  split.
  - intros l1 l2 fuzzy threshold. rewrite !batch_search_names_flat.
    apply flat_map_app.
  - intros r1 r2 nc lc. unfold process_new_source. simpl. apply for_each_app.
Qed.

(** X16.  What a row of [batch_search_names] holds.  An [exact] row has
    the truthy uid of the exact lookup and score 100; a [fuzzy] row has a
    key of the index, its uid and its score, which reaches the
    threshold; a [no_match] row has no uid and score 0, and then no key
    reaches the threshold.  Rows other than [exact] appear only with
    fuzzy matching on. *)
Theorem batch_row_content (self : HezbollahDataIntegrator)
    (names : list cell) (fuzzy : bool) (threshold : Z) (b : BatchRow.t) :
  In b (batch_search_names ratio self names fuzzy threshold) ->
  In (BatchRow.input_name b) names /\
  match BatchRow.match_type b with
  | l_exact =>
      BatchRow.uid b = exact_match self (BatchRow.input_name b) /\
      truthy_uid (BatchRow.uid b) = true /\
      BatchRow.match_score b = 100 /\ BatchRow.ofac_name b = None
  | l_fuzzy =>
      fuzzy = true /\ threshold <= BatchRow.match_score b /\
      exists k u,
        In (k, u) (name_index self) /\
        BatchRow.uid b = Some u /\ BatchRow.ofac_name b = Some k /\
        BatchRow.match_score b = ratio (normalize_name (BatchRow.input_name b)) k
  | l_no_match =>
      fuzzy = true /\ BatchRow.uid b = None /\ BatchRow.match_score b = 0 /\
      hits ratio self (BatchRow.input_name b) threshold = []
  | l_none => False
  end.
Proof.
  intros H. rewrite batch_search_names_flat in H.
  apply in_flat_map in H as [name [Hn Hb]].
  pose proof (batch_step_name _ _ _ _ _ _ Hb) as E. subst name.
  split; [exact Hn|]. unfold batch_step in Hb.
  destruct (truthy_uid (exact_match self (BatchRow.input_name b))) eqn:T.
  - destruct Hb as [Hb|[]]. rewrite <- Hb in *. simpl in *. auto.
  - destruct fuzzy; [|contradiction].
    destruct (fuzzy_match ratio self (BatchRow.input_name b) threshold) as [|m rest] eqn:F.
    + destruct Hb as [Hb|[]]. rewrite <- Hb in *. simpl in *.
      repeat split; try reflexivity.
      rewrite fuzzy_match_hits in F.
      destruct (hits ratio self (BatchRow.input_name b) threshold) as [|x l] eqn:Hh;
        [reflexivity|].
      exfalso. assert (Hx : In x (sorted_desc (x :: l))).
      { apply (Permutation_in x (Permutation_sym (sorted_desc_perm (x :: l)))).
        left; reflexivity. }
      rewrite F in Hx. contradiction.
    + assert (Hm : In m (fuzzy_match ratio self (BatchRow.input_name b) threshold))
        by (rewrite F; left; reflexivity).
      apply fuzzy_match_In, hits_score in Hm as [k [u [Hk [Ht Em]]]].
      destruct Hb as [Hb|[]]. rewrite <- Hb in *. simpl in *. subst m. simpl.
      split; [reflexivity|]. split; [exact Ht|]. exists k, u. auto.
Qed.

(** X17.  The two drivers agree on a name: the verdict
    [process_new_source] gives a row is the one [batch_search_names]
    gives its name at threshold 80 with fuzzy matching on, [none]
    standing for [no_match]. *)
Theorem drivers_agree (self : HezbollahDataIntegrator)
    (idx : Z) (r : row) (nc : text) (name : cell) :
  nc <> [] -> row_get nc r = Some name ->
  exists b res,
    batch_search_names ratio self [name] true 80 = [b] /\
    process_row ratio re_search self (Some nc) None (idx, r) = Ok res /\
    same_verdict b res.
Proof.
  intros Hc Hr. rewrite batch_search_names_flat, process_row_no_location.
  rewrite (name_matching_present ratio self nc r name (fresh idx) Hc Hr).
  simpl flat_map. rewrite app_nil_r. unfold batch_step.
  destruct (truthy_uid (exact_match self name)).
  - eexists. eexists. split; [reflexivity|]. split; [reflexivity|].
    unfold same_verdict. simpl. auto.
  - destruct (fuzzy_match ratio self name 80) as [|m rest];
      (eexists; eexists; split; [reflexivity|]; split; [reflexivity|]);
      unfold same_verdict; simpl; auto.
Qed.

(** X18.  One bad location cell costs the whole call: when the location
    lookup of some row raises, and it does for a missing ([NaN]) cell,
    [process_new_source] raises and returns no result for any row. *)
Theorem bad_location_aborts (self : HezbollahDataIntegrator)
    (rows : list (Z * row)) (nc : option text) (lc : text) (idx : Z) (r : row)
    (loc : cell) :
  lc <> [] -> In (idx, r) rows -> row_get lc r = Some loc ->
  (loc = NA \/ exists e0, search_by_location re_search self (Some loc) None = Raise e0) ->
  exists e, process_new_source ratio re_search self (Frame rows) nc (Some lc) = Raise e.
Proof.
  intros Hc Hin Hr Hbad.
  assert (S : exists e0, search_by_location re_search self (Some loc) None = Raise e0).
  { destruct Hbad as [->|H]; [exists TypeError; reflexivity|exact H]. }
  destruct S as [e0 S]. unfold process_new_source. simpl.
  apply (for_each_raise _ rows (idx, r) e0 Hin).
  unfold process_row, location_matching. simpl.
  destruct lc as [|c lc]; [contradiction|]. simpl. rewrite Hr, S. reflexivity.
Qed.

End BatchFacts.

(** ** Which rows an exact lookup can return *)

Lemma dict_set_pairs (k : text) (v : Z) (d : dict) (k0 : text) (u : Z) :
  In (k0, u) (dict_set k v d) -> In (k0, u) d \/ (k0 = k /\ u = v).
Proof.
  induction d as [|[k' v'] d IH]; simpl.
  - intros [H|[]]. inversion H. right; split; reflexivity.
  - destruct (text_eqb k' k) eqn:E.
    + apply text_eqb_true in E. subst k'.
      intros [H|H]; [inversion H; right; split; reflexivity|left; right; exact H].
    + intros [H|H]; [left; left; exact H|].
      destruct (IH H) as [H'|H']; [left; right; exact H'|right; exact H'].
Qed.

Lemma fold_assign_pairs (items : list (text * Z)) :
  forall d k u, In (k, u) (fold_left assign items d) -> In (k, u) d \/ In (k, u) items.
Proof.
  induction items as [|[k' v] items IH]; intros d k u H; simpl in *; [left; exact H|].
  destruct (IH _ _ _ H) as [H1|H1]; [|right; right; exact H1].
  unfold assign in H1. simpl in H1.
  destruct (dict_set_pairs _ _ _ _ _ H1) as [H2|[-> ->]]; [left; exact H2|].
  right. left. reflexivity.
Qed.

(** X25.  An exact lookup answers with a row only under a key that is its
    own normal form: the uid returned is the uid of an entity or alias row
    whose key equals the normalised query, and that key is unchanged by
    [normalize_name]; a row filed under any other key is never the source
    of an exact answer. *)
Theorem exact_match_source_row
    (es : list Entity.t) (als : list Alias.t) (ads : list Address.t)
    (ds : list IdDoc.t) (name : cell) (uid : Z) :
  exact_match (init es als ads ds) name = Some uid ->
  In (normalize_name name, uid) (assignments es als) /\
  normalize_name (Text (normalize_name name)) = normalize_name name.
Proof.
  intros H. unfold exact_match in H. simpl name_index in H.
  apply dict_get_Some in H. rewrite build_as_fold in H.
  apply fold_assign_pairs in H as [[]|H]. split; [exact H|].
  apply normalize_name_fixed.
  - apply normalize_name_upper.
  - apply normalize_name_title_free.
  - destruct name as [|s]; [reflexivity|]. rewrite normalize_name_text.
    apply collapse_idem.
Qed.

(* ================================================================= *)
(** * The analysis script *)

(** ** Sets of uids *)

Lemma isin_In (uids : list Z) (u : Z) : isin uids u = true <-> In u uids.
Proof.
  unfold isin. rewrite existsb_exists. split.
  - intros [x [H E]]. apply Z.eqb_eq in E. subst x. exact H.
  - intros H. exists u. split; [exact H|apply Z.eqb_refl].
Qed.

Lemma unique_In (l : list Z) (x : Z) : In x (unique l) <-> In x l.
Proof.
  induction l as [|y l IH]; simpl; [tauto|].
  rewrite filter_In, IH, negb_true_iff, Z.eqb_neq.
  destruct (Z.eq_dec y x); [subst; tauto|]. split; [tauto|].
  intros [H|H]; [contradiction|]. right. split; [exact H|congruence].
Qed.

Lemma unique_NoDup (l : list Z) : NoDup (unique l).
Proof.
  induction l as [|y l IH]; simpl; [constructor|]. constructor.
  - rewrite filter_In, negb_true_iff, Z.eqb_neq. intros [_ H]. congruence.
  - apply NoDup_filter. exact IH.
Qed.

Lemma set_add_In (s : list Z) (x y : Z) : In y (set_add s x) <-> In y s \/ y = x.
Proof.
  unfold set_add. destruct (existsb (Z.eqb x) s) eqn:E.
  - apply (isin_In s x) in E. split; [tauto|]. intros [H| ->]; assumption.
  - rewrite in_app_iff. simpl. intuition congruence.
Qed.

Lemma set_add_NoDup (s : list Z) (x : Z) : NoDup s -> NoDup (set_add s x).
Proof.
  intros N. unfold set_add. destruct (existsb (Z.eqb x) s) eqn:E; [exact N|].
  assert (Hx : ~ In x s).
  { intros H. apply (isin_In s x) in H. unfold isin in H. congruence. }
  clear E. induction N as [|y s Hy N IH]; simpl.
  - constructor; [intros []|constructor].
  - constructor.
    + rewrite in_app_iff. simpl. intros [H|[H|[]]]; [contradiction|].
      apply Hx. left. symmetry. exact H.
    + apply IH. intros H. apply Hx. right. exact H.
Qed.

Lemma set_update_In (l s : list Z) (y : Z) :
  In y (set_update s l) <-> In y s \/ In y l.
Proof.
  unfold set_update. revert s. induction l as [|x l IH]; intros s; simpl; [tauto|].
  rewrite IH, set_add_In. intuition congruence.
Qed.

Lemma set_update_NoDup (l s : list Z) : NoDup s -> NoDup (set_update s l).
Proof.
  unfold set_update. revert s. induction l as [|x l IH]; intros s N; simpl; [exact N|].
  apply IH, set_add_NoDup, N.
Qed.

(** ** Who is identified *)





(** ** The filtered dataset *)

Lemma isin_same (l1 l2 : list Z) :
  (forall u, In u l1 <-> In u l2) -> forall u, isin l1 u = isin l2 u.
Proof.
  intros H u. destruct (isin l1 u) eqn:E1, (isin l2 u) eqn:E2; try reflexivity.
  - apply isin_In, H, isin_In in E1. congruence.
  - apply isin_In, H, isin_In in E2. congruence.
Qed.

Lemma filter_isin_same {A : Type} (key : A -> Z) (l1 l2 : list Z) (t : list A) :
  (forall u, In u l1 <-> In u l2) ->
  filter (fun x => isin l1 (key x)) t = filter (fun x => isin l2 (key x)) t.
Proof. intros H. apply filter_ext. intros x. apply isin_same, H. Qed.

Lemma filter_isin_idem {A : Type} (key : A -> Z) (l : list Z) (t : list A) :
  filter (fun x => isin l (key x)) (filter (fun x => isin l (key x)) t) =
  filter (fun x => isin l (key x)) t.
Proof.
  rewrite filter_twice. apply filter_ext. intros x. apply andb_diag.
Qed.

Lemma filter_isin_comm {A : Type} (key : A -> Z) (l1 l2 : list Z) (t : list A) :
  filter (fun x => isin l2 (key x)) (filter (fun x => isin l1 (key x)) t) =
  filter (fun x => isin l1 (key x)) (filter (fun x => isin l2 (key x)) t).
Proof.
  rewrite !filter_twice. apply filter_ext. intros x. apply andb_comm.
Qed.

(** X20.  [create_hezbollah_dataset] reads its list of uids as a set: two
    lists with the same members give the same dataset, whatever their
    order and repetitions; filtering a filtered dataset again by the same
    list changes nothing, and filtering by two lists gives the same
    dataset in either order. *)
Theorem create_hezbollah_dataset_by_membership (full : Dataset.t) :
  (forall l1 l2,
      (forall u, In u l1 <-> In u l2) ->
      create_hezbollah_dataset full l1 = create_hezbollah_dataset full l2) /\
  (forall l,
      create_hezbollah_dataset (create_hezbollah_dataset full l) l =
      create_hezbollah_dataset full l) /\
  (forall l1 l2,
      create_hezbollah_dataset (create_hezbollah_dataset full l1) l2 =
      create_hezbollah_dataset (create_hezbollah_dataset full l2) l1).
Proof.
  split; [|split].
  - intros l1 l2 H. unfold create_hezbollah_dataset.
    rewrite (filter_isin_same Entity.uid l1 l2 _ H),
            (filter_isin_same Program.uid l1 l2 _ H),
            (filter_isin_same Alias.entity_uid l1 l2 _ H),
            (filter_isin_same Address.entity_uid l1 l2 _ H),
            (filter_isin_same Dob.entity_uid l1 l2 _ H),
            (filter_isin_same Pob.entity_uid l1 l2 _ H),
            (filter_isin_same Nationality.entity_uid l1 l2 _ H),
            (filter_isin_same IdDoc.entity_uid l1 l2 _ H).
    reflexivity.
  - intros l. unfold create_hezbollah_dataset. simpl.
    rewrite (filter_isin_idem Entity.uid), (filter_isin_idem Program.uid),
            (filter_isin_idem Alias.entity_uid), (filter_isin_idem Address.entity_uid),
            (filter_isin_idem Dob.entity_uid), (filter_isin_idem Pob.entity_uid),
            (filter_isin_idem Nationality.entity_uid), (filter_isin_idem IdDoc.entity_uid).
    reflexivity.
  - intros l1 l2. unfold create_hezbollah_dataset. simpl.
    rewrite (filter_isin_comm Entity.uid l1 l2), (filter_isin_comm Program.uid l1 l2),
            (filter_isin_comm Alias.entity_uid l1 l2),
            (filter_isin_comm Address.entity_uid l1 l2),
            (filter_isin_comm Dob.entity_uid l1 l2), (filter_isin_comm Pob.entity_uid l1 l2),
            (filter_isin_comm Nationality.entity_uid l1 l2),
            (filter_isin_comm IdDoc.entity_uid l1 l2).
    reflexivity.
Qed.




(** ** South American connections *)

Lemma cell_in_Text (values : list text) (c : cell) :
  cell_in values c = true <-> exists s, c = Text s /\ In s values.
Proof.
  destruct c as [|s]; simpl.
  - split; [discriminate|]. intros [s [H _]]. discriminate.
  - rewrite existsb_exists. split.
    + intros [v [H E]]. apply text_eqb_true in E. subst v. exists s. auto.
    + intros [s' [E H]]. injection E as E'. subst s'.
      exists s. split; [exact H|apply text_eqb_refl].
Qed.

(** X22.  What [analyze_south_america] returns.  The uids are those, each
    once, of the rows with a South American address country, nationality
    or identity-document country, the country being one of the thirteen
    names spelled exactly; the entities, programs and aliases returned
    are the rows of these uids; every address returned has such a
    country. *)
Theorem analyze_south_america_members (data : Dataset.t) :
  let sa := fst (analyze_south_america data) in
  let uids := snd (analyze_south_america data) in
  NoDup uids /\
  (forall u,
      In u uids <->
      (exists a, In a (Dataset.addresses data) /\ Address.entity_uid a = u /\
                 cell_in south_american_countries (Address.country a) = true) \/
      (exists n, In n (Dataset.nationalities data) /\ Nationality.entity_uid n = u /\
                 cell_in south_american_countries (Nationality.country n) = true) \/
      (exists d, In d (Dataset.ids data) /\ IdDoc.entity_uid d = u /\
                 cell_in south_american_countries (IdDoc.id_country d) = true)) /\
  (forall e, In e (SaData.entities sa) <->
             In e (Dataset.entities data) /\ In (Entity.uid e) uids) /\
  (forall p, In p (SaData.programs sa) <->
             In p (Dataset.programs data) /\ In (Program.uid p) uids) /\
  (forall a, In a (SaData.aliases sa) <->
             In a (Dataset.aliases data) /\ In (Alias.entity_uid a) uids) /\
  (forall a, In a (SaData.addresses sa) ->
             In (Address.entity_uid a) uids /\
             exists c, Address.country a = Text c /\ In c south_american_countries).
Proof.
  unfold analyze_south_america. cbv zeta. simpl fst. simpl snd.
  set (sa_addresses := filter (fun a => cell_in south_american_countries (Address.country a))
                              (Dataset.addresses data)).
  set (sa_nat := filter (fun n => cell_in south_american_countries (Nationality.country n))
                        (Dataset.nationalities data)).
  set (sa_ids := filter (fun d => cell_in south_american_countries (IdDoc.id_country d))
                        (Dataset.ids data)).
  set (uids := set_update _ _).
  assert (M : forall u,
             In u uids <->
             (exists a, In a (Dataset.addresses data) /\ Address.entity_uid a = u /\
                        cell_in south_american_countries (Address.country a) = true) \/
             (exists n, In n (Dataset.nationalities data) /\ Nationality.entity_uid n = u /\
                        cell_in south_american_countries (Nationality.country n) = true) \/
             (exists d, In d (Dataset.ids data) /\ IdDoc.entity_uid d = u /\
                        cell_in south_american_countries (IdDoc.id_country d) = true)).
  { intros u. unfold uids. rewrite !set_update_In, !unique_In, !in_map_iff.
    unfold sa_addresses, sa_nat, sa_ids. simpl.
    split.
    - intros [[[[]|[x [E H]]]|[x [E H]]]|[x [E H]]]; apply filter_In in H as [H1 H2].
      + left. exists x. auto.
      + right. left. exists x. auto.
      + right. right. exists x. auto.
    - intros [[x [H1 [E H2]]]|[[x [H1 [E H2]]]|[x [H1 [E H2]]]]].
      + left. left. right. exists x. rewrite filter_In. auto.
      + left. right. exists x. rewrite filter_In. auto.
      + right. exists x. rewrite filter_In. auto. }
  split; [unfold uids; repeat apply set_update_NoDup; constructor|].
  split; [exact M|].
  split; [intros e; cbn [SaData.entities SaData.programs SaData.aliases];
          rewrite filter_In, isin_In; reflexivity|].
  split; [intros p; cbn [SaData.entities SaData.programs SaData.aliases];
          rewrite filter_In, isin_In; reflexivity|].
  split; [intros a; cbn [SaData.entities SaData.programs SaData.aliases];
          rewrite filter_In, isin_In; reflexivity|].
  intros a H. cbn [SaData.addresses] in H. unfold sa_addresses in H.
  apply filter_In in H as [H1 H2]. split.
  - apply M. left. exists a. auto.
  - apply cell_in_Text in H2. exact H2.
Qed.

(* ================================================================= *)
(** * Names extracted from free text *)

Lemma lower_run_split (s : text) :
  exists ls, s = ls ++ skipn (lower_run s) s /\ length ls = lower_run s /\
             Forall (fun x => islower x = true) ls.
Proof.
  induction s as [|c s [ls [E [L F]]]]; [exists []; repeat split; constructor|].
  simpl. destruct (islower c) eqn:Ec.
  - exists (c :: ls). simpl. repeat split; [congruence|congruence|constructor; assumption].
  - exists []. repeat split. constructor.
Qed.

Lemma blank_run_split (s : text) :
  exists b, s = b ++ skipn (blank_run s) s /\ length b = blank_run s /\ blank b.
Proof.
  induction s as [|c s [b [E [L F]]]]; [exists []; repeat split; constructor|].
  simpl. destruct (isspace c) eqn:Ec.
  - exists (c :: b). simpl. repeat split; [congruence|congruence|constructor; assumption].
  - exists []. repeat split. constructor.
Qed.

Lemma cap_word_spec (s : text) (n : nat) :
  cap_word s = Some n ->
  exists w, capword w /\ length w = n /\ s = w ++ skipn n s.
Proof.
  destruct s as [|c r]; simpl; [discriminate|].
  destruct (isupper c) eqn:U; [|discriminate].
  destruct (lower_run_split r) as [ls [E [L F]]].
  destruct (lower_run r) as [|k] eqn:R; [discriminate|].
  intros H. inversion H; subst n. exists (c :: ls). split; [|split].
  - constructor; [exact U| |exact F]. intros ->. discriminate.
  - simpl. congruence.
  - change ((c :: ls) ++ skipn (S (S k)) (c :: r)) with (c :: (ls ++ skipn (S k) r)).
    congruence.
Qed.

Lemma skipn_add (a b : nat) (s : text) : skipn (a + b) s = skipn b (skipn a s).
Proof. rewrite skipn_skipn. f_equal. lia. Qed.

Lemma next_word_spec (s : text) (n : nat) :
  next_word s = Some n ->
  exists b w, b <> [] /\ blank b /\ capword w /\
              length (b ++ w) = n /\ s = (b ++ w) ++ skipn n s.
Proof.
  unfold next_word. destruct (blank_run_split s) as [b [E [L F]]].
  destruct (blank_run s) as [|k]; [discriminate|].
  destruct (cap_word (skipn (S k) s)) as [w|] eqn:C; [|discriminate].
  intros H. injection H as Hn.
  destruct (cap_word_spec _ _ C) as [cw [Hc [Lc Ec]]].
  exists b, cw. split; [intros ->; discriminate|]. split; [exact F|]. split; [exact Hc|].
  split; [rewrite length_app; lia|].
  replace n with (S k + w)%nat by lia.
  rewrite skipn_add, <- app_assoc, <- Ec. exact E.
Qed.

Lemma more_words_spec (most : nat) :
  forall need s m,
    more_words most need s = Some m ->
    exists k t, (need <= k <= most)%nat /\ tail_of k t /\
                length t = m /\ s = t ++ skipn m s.
Proof.
  assert (Stop : forall need s m,
             match need with O => word_end s | S _ => None end = Some m ->
             exists k t, (need <= k <= 0)%nat /\ tail_of k t /\
                         length t = m /\ s = t ++ skipn m s).
  { intros [|need] s m; [|discriminate]. unfold word_end.
    destruct (head_word s); [discriminate|]. intros H. inversion H.
    exists 0%nat, []. repeat split; try constructor. }
  induction most as [|most IH]; intros need s m H.
  - simpl in H. exact (Stop _ _ _ H).
  - assert (Stop' : match need with O => word_end s | S _ => None end = Some m ->
                    exists k t, (need <= k <= S most)%nat /\ tail_of k t /\
                                length t = m /\ s = t ++ skipn m s).
    { intros H'. destruct (Stop _ _ _ H') as [k [t [Hk R]]]. exists k, t.
      split; [lia|exact R]. }
    simpl in H. destruct (next_word s) as [n|] eqn:N; [|exact (Stop' H)].
    destruct (more_words most (pred need) (skipn n s)) as [m'|] eqn:M; [|exact (Stop' H)].
    injection H as Hm.
    destruct (next_word_spec _ _ N) as [b [w [Hb [Bb [Cw [L E]]]]]].
    destruct (IH _ _ _ M) as [k [t [Hk [T [Lt Et]]]]].
    exists (S k), (b ++ w ++ t). split; [lia|]. split; [constructor; assumption|].
    split; [rewrite app_assoc, length_app; lia|].
    replace m with (n + m')%nat by lia.
    rewrite skipn_add, app_assoc, <- app_assoc, <- Et. exact E.
Qed.

Lemma name_at_spec (p : option ascii) (s : text) (n : nat) :
  name_at p s = Some n ->
  exists w k t, capword w /\ tail_of k t /\ (1 <= k <= 3)%nat /\
                length (w ++ t) = n /\ s = (w ++ t) ++ skipn n s.
Proof.
  unfold name_at. destruct (boundary p (hd_error s)); [|discriminate].
  destruct (cap_word s) as [a|] eqn:C; [|discriminate].
  destruct (more_words 3 1 (skipn a s)) as [m|] eqn:M; [|discriminate].
  intros H. injection H as Hn.
  destruct (cap_word_spec _ _ C) as [w [Hw [Lw Ew]]].
  destruct (more_words_spec _ _ _ _ M) as [k [t [Hk [T [Lt Et]]]]].
  exists w, k, t. split; [exact Hw|]. split; [exact T|]. split; [exact Hk|].
  split; [rewrite length_app; lia|].
  replace n with (a + m)%nat by lia.
  rewrite skipn_add, <- app_assoc, <- Et. exact Ew.
Qed.

Lemma firstn_exact (l r : text) : firstn (length l) (l ++ r) = l.
Proof. induction l as [|c l IH]; [reflexivity|]. simpl. rewrite IH. reflexivity. Qed.

Lemma findall_from_spec (s : text) :
  forall p skip m,
    In m (findall_from p skip s) ->
    exists pre post w k t,
      s = pre ++ m ++ post /\ m = w ++ t /\
      capword w /\ tail_of k t /\ (1 <= k <= 3)%nat.
Proof.
  induction s as [|c s IH]; intros p skip m H; [contradiction|].
  assert (Later : forall q j, In m (findall_from q j s) ->
             exists pre post w k t,
               c :: s = pre ++ m ++ post /\ m = w ++ t /\
               capword w /\ tail_of k t /\ (1 <= k <= 3)%nat).
  { intros q j Hq. destruct (IH _ _ _ Hq) as [pre [post [w [k [t [E R]]]]]].
    exists (c :: pre), post, w, k, t. split; [simpl; congruence|exact R]. }
  simpl in H. destruct skip as [|j]; [|exact (Later _ _ H)].
  destruct (name_at p (c :: s)) as [[|n]|] eqn:N; try exact (Later _ _ H).
  destruct H as [H|H]; [|exact (Later _ _ H)].
  destruct (name_at_spec _ _ _ N) as [w [k [t [Hw [T [Hk [L E]]]]]]].
  assert (F : firstn (S n) (c :: s) = w ++ t).
  { rewrite E at 1. rewrite <- L. apply firstn_exact. }
  assert (Hm : m = w ++ t) by (rewrite <- F; symmetry; exact H).
  exists [], (skipn (S n) (c :: s)), w, k, t.
  rewrite Hm. split; [rewrite app_nil_l; exact E|]. auto.
Qed.

Lemma distinct_In (l : list text) (x : text) : In x (distinct l) <-> In x l.
Proof.
  induction l as [|y l IH]; simpl; [tauto|].
  rewrite filter_In, IH, negb_true_iff, text_eqb_false.
  destruct (list_eq_dec ascii_dec y x); [subst; tauto|]. split; [tauto|].
  intros [H|H]; [contradiction|]. right. split; [exact H|congruence].
Qed.

Lemma distinct_NoDup (l : list text) : NoDup (distinct l).
Proof.
  induction l as [|y l IH]; simpl; [constructor|]. constructor.
  - rewrite filter_In, negb_true_iff, text_eqb_false. intros [_ H]. congruence.
  - apply NoDup_filter. exact IH.
Qed.

Lemma starts_with_app (m post : text) : starts_with m (m ++ post) = true.
Proof.
  induction m as [|c m IH]; [destruct post; reflexivity|].
  simpl. rewrite ascii_eqb_refl. exact IH.
Qed.

Lemma occurs_in_app (pre m post : text) : occurs_in m (pre ++ m ++ post) = true.
Proof.
  induction pre as [|c pre IH]; simpl.
  - destruct (m ++ post) eqn:E; simpl; rewrite <- E, starts_with_app; reflexivity.
  - rewrite IH. apply orb_true_r.
Qed.

(** X23.  What [extract_names_from_text] returns: strings that occur in
    the text, each once, and each made of an upper-case letter with
    lower-case letters after it, followed by one to three more such
    words, every one after one or more blanks. *)
Theorem extract_names_shape (t : text) :
  NoDup (extract_names_from_text t) /\
  (forall m,
      In m (extract_names_from_text t) ->
      occurs_in m t = true /\
      exists w k tl,
        m = w ++ tl /\ capword w /\ tail_of k tl /\ (1 <= k <= 3)%nat).
Proof.
  unfold extract_names_from_text. split; [apply distinct_NoDup|].
  intros m H. rewrite distinct_In in H.
  destruct (findall_from_spec _ _ _ _ H) as [pre [post [w [k [tl [E R]]]]]].
  split; [rewrite E; apply occurs_in_app|]. exists w, k, tl. exact R.
Qed.

Lemma findall_none (s : text) :
  Forall (fun c => isupper c = false) s \/ Forall (fun c => islower c = false) s ->
  forall p skip, findall_from p skip s = [].
Proof.
  induction s as [|c s IH]; intros H p skip; [reflexivity|].
  assert (H' : Forall (fun c => isupper c = false) s \/
               Forall (fun c => islower c = false) s).
  { destruct H as [H|H]; inversion H; subst; [left|right]; assumption. }
  simpl. destruct skip; [|apply IH; exact H'].
  assert (N : name_at p (c :: s) = None).
  { unfold name_at. destruct (boundary p (hd_error (c :: s))); [|reflexivity].
    assert (C : cap_word (c :: s) = None); [|rewrite C; reflexivity].
    simpl. destruct (isupper c) eqn:U; [|reflexivity].
    destruct H as [H|H]; [inversion H; congruence|].
    destruct s as [|d s]; [reflexivity|]. simpl.
    inversion H as [|? ? _ Hs]; subst. inversion Hs as [|? ? Hd _]; subst.
    rewrite Hd. reflexivity. }
  rewrite N. apply IH. exact H'.
Qed.

(** X24.  A text without upper-case letters, and a text without
    lower-case letters, such as a name printed in capitals, yield no
    name. *)
Theorem extract_names_needs_both_cases (t : text) :
  Forall (fun c => isupper c = false) t \/ Forall (fun c => islower c = false) t ->
  extract_names_from_text t = [].
Proof.
  intros H. unfold extract_names_from_text. rewrite findall_none by exact H.
  reflexivity.
Qed.

(* ================================================================= *)
(** * The further properties at the sample data *)

Lemma normalize_name_no_title_witness :
  ends_word [] = true \/ head_word (lit "AMA") = true.
Proof.
  apply (normalize_name_no_title (Text (lit "drama")) [] (lit "DR") (lit "AMA")).
  - reflexivity.
  - simpl. right; right; right; left; reflexivity.
Defined.

Lemma normalize_name_ignores_padding_witness :
  normalize_name (Text (strip (lit "  Jane Doe ")))
  = normalize_name (Text (lit "  Jane Doe ")).
Proof. apply normalize_name_ignores_padding. Defined.

Lemma name_index_last_row_wins_witness :
  dict_get (lit "J. DOE") (_build_name_index [jane; acme] [jane_aka; orphan_aka]) = Some 7.
Proof.
  destruct (name_index_last_row_wins [jane; acme] [jane_aka; orphan_aka])
    as [_ [_ [H _]]].
  apply (H [(lit "JANE DOE", 7); (lit "ACME TRADING", 9)] (lit "J. DOE") 7 [(lit "GHOST", 5)]).
  - reflexivity.
  - simpl. intros [H1|[]]. discriminate H1.
Defined.

Lemma exact_match_own_name_witness :
  exact_match (init [jane; acme] [jane_aka; orphan_aka] [] [])
              (Text (composed (Text (lit "Jane")) (Text (lit "Doe")))) = Some 7.
Proof.
  apply (exact_match_own_name [jane; acme] [jane_aka; orphan_aka] [] [] []
           [(lit "ACME TRADING", 9); (lit "J. DOE", 7); (lit "GHOST", 5)]).
  - reflexivity.
  - simpl. intros [H|[H|[H|[]]]]; discriminate H.
  - reflexivity.
Defined.

Lemma exact_hit_in_fuzzy_witness :
  In (Match.mk 7 (lit "JANE DOE") (Text (lit "Jane Doe")) 100)
     (fuzzy_match ratio_same sample (Text (lit "Jane Doe")) 85).
Proof.
  apply (exact_hit_in_fuzzy ratio_same sample (Text (lit "Jane Doe")) 7 85).
  - reflexivity.
  - vm_compute. discriminate.
Defined.

Lemma matching_by_normal_form_witness :
  exact_match sample (Text (lit "dr. jane doe")) = exact_match sample (Text (lit "JANE DOE")).
Proof.
  apply (matching_by_normal_form ratio_same sample
           (Text (lit "dr. jane doe")) (Text (lit "JANE DOE")) 85).
  reflexivity.
Defined.

Lemma searches_select_rows_witness :
  exists f, [jane_home] = filter f (addresses sample).
Proof.
  destruct (searches_select_rows search_literal sample) as [_ [_ [_ [_ [H _]]]]].
  apply (H (Some (Text (lit "leban"))) None). reflexivity.
Defined.





Lemma profile_first_entity_row_witness :
  exists p, get_entity_profile sample (UidInt 7) = Ok (Some p) /\ Profile.basic_info p = jane.
Proof.
  apply (profile_first_entity_row sample [] [acme] jane).
  - reflexivity.
  - intros [].
Defined.

Lemma profiles_disjoint_witness :
  ~ In jane_aka (Profile.aliases acme_profile).
Proof.
  destruct (profiles_disjoint sample (UidInt 7) (UidInt 9) jane_profile acme_profile)
    as [H _].
  - reflexivity.
  - reflexivity.
  - discriminate.
  - apply (H jane_aka). left. reflexivity.
Defined.

Lemma batch_row_content_witness :
  In (Text (lit "Jane Doe")) [Text (lit "Jane Doe")].
Proof.
  apply (batch_row_content ratio_same sample [Text (lit "Jane Doe")] true 85
           (BatchRow.mk (Text (lit "Jane Doe")) l_exact (Some 7) None 100)).
  left. reflexivity.
Defined.

Lemma drivers_agree_witness :
  exists b res,
    batch_search_names ratio_same sample [Text (lit "Jane Doe")] true 80 = [b] /\
    process_row ratio_same search_literal sample (Some (lit "Name")) None
      (0, name_row "Jane Doe") = Ok res /\
    same_verdict b res.
Proof.
  apply (drivers_agree ratio_same search_literal sample 0 (name_row "Jane Doe") (lit "Name")
           (Text (lit "Jane Doe"))).
  - discriminate.
  - reflexivity.
Defined.

Lemma bad_location_aborts_witness :
  exists e,
    process_new_source ratio_same search_literal sample
      (Frame [(0, [(lit "Country", Text (lit "Lebanon"))]); (1, [(lit "Country", NA)])])
      None (Some (lit "Country")) = Raise e.
Proof.
  apply (bad_location_aborts ratio_same search_literal sample _ None (lit "Country")
           1 [(lit "Country", NA)] NA).
  - discriminate.
  - right. left. reflexivity.
  - reflexivity.
  - left. reflexivity.
Defined.

Lemma create_hezbollah_dataset_by_membership_witness :
  create_hezbollah_dataset sample_data [7; 9] = create_hezbollah_dataset sample_data [9; 7; 7].
Proof.
  apply (create_hezbollah_dataset_by_membership sample_data).
  intros u. simpl. tauto.
Defined.


Lemma analyze_south_america_members_witness :
  In (Address.entity_uid acme_office) (snd (analyze_south_america sample_data)).
Proof.
  destruct (analyze_south_america_members sample_data) as [_ [_ [_ [_ [_ H]]]]].
  apply (H acme_office). simpl. left. reflexivity.
Defined.

Lemma extract_names_shape_witness :
  occurs_in (lit "Salman Raouf") (lit "met Salman Raouf SALMAN there") = true.
Proof.
  destruct (extract_names_shape (lit "met Salman Raouf SALMAN there")) as [_ H].
  apply (H (lit "Salman Raouf")). vm_compute. tauto.
Defined.

Lemma extract_names_needs_both_cases_witness :
  extract_names_from_text (lit "SALMAN RAOUF SALMAN") = [].
Proof.
  apply extract_names_needs_both_cases. right. repeat constructor.
Defined.

Lemma exact_match_source_row_witness :
  In (normalize_name (Text (lit "dr. jane doe")), 7)
     (assignments [jane; acme] [jane_aka; orphan_aka]).
Proof.
  apply (exact_match_source_row [jane; acme] [jane_aka; orphan_aka] [] []
           (Text (lit "dr. jane doe")) 7).
  reflexivity.
Defined.
